(** * mongodb_json_converter.py: a shallow embedding

    The Python module turns the constructor-style values of a MongoDB
    export ([ObjectId("...")], [Date("...")], ...) into plain JSON values,
    line by line, writes the result to a second file and projects four
    fields of the parsed document into a row.

    Text is a [list ascii]: one Python character per element (the model
    covers the characters U+0000 .. U+00FF).  Python's [re] module is
    modelled by a small backtracking matcher for the fragment the code uses
    (single-character classes, greedy repetition, capture groups), and
    [re.sub] by a replacement-template parser and expander following
    CPython 3.11's [sre_parse.parse_template] / [expand_template]. *)

From Stdlib Require Import Ascii String.
From stdpp Require Import base list gmap strings.

#[local] Set Warnings "-register-all".

(** Text literals. *)
Definition txt (s : string) : list ascii := String.list_ascii_of_string s.

Definition NL : ascii := "010"%char.
Definition QUOTE : ascii := ascii_of_nat 34.

(** Text literals in which a single quote stands for a double quote. *)
Definition txtq (s : string) : list ascii :=
  map (fun c => if Ascii.eqb c "'"%char then QUOTE else c) (txt s).
Definition BSLASH : ascii := "\"%char.

(** ** Character classes *)

Definition in_range (lo hi : nat) (c : ascii) : bool :=
  (lo <=? nat_of_ascii c) && (nat_of_ascii c <=? hi).

(** [[A-Z]] *)
Definition is_upper (c : ascii) : bool := in_range 65 90 c.
(** [[a-z]] *)
Definition is_lower (c : ascii) : bool := in_range 97 122 c.
(** [[a-zA-Z]] *)
Definition is_alpha (c : ascii) : bool := is_lower c || is_upper c.
(** [.] without [re.DOTALL]: any character but a newline. *)
Definition not_newline (c : ascii) : bool := negb (Ascii.eqb c NL).
(** A literal character of a pattern. *)
Definition is_char (d : ascii) (c : ascii) : bool := Ascii.eqb c d.

(** ** A backtracking regular-expression matcher

    A pattern is a sequence of items.  [Atom p] consumes one character
    satisfying [p]; [Rep p mn] is the greedy repetition [p{mn,}] (so
    [p*] is [Rep p 0] and [p+] is [Rep p 1]); [Save n] records the current
    position in capture slot [n] (group [g] opens in slot [2g] and closes
    in slot [2g+1]).  Captures are a list of (slot, position), newest
    first; backtracking drops the captures of the abandoned branch. *)

Inductive item : Type :=
| Atom (p : ascii -> bool)
| Rep (p : ascii -> bool) (mn : nat)
| Save (slot : nat).

Definition captures := list (nat * nat).

(** Length of the longest prefix of [s] whose characters satisfy [p]. *)
Fixpoint run (p : ascii -> bool) (s : list ascii) : nat :=
  match s with
  | c :: s' => if p c then S (run p s') else 0
  | [] => 0
  end.

(** The backtracking of a greedy repetition: try the continuation [f]
    with [k] repetitions, then [k-1], ..., down to [mn]. *)
Fixpoint backtrack {R : Type} (f : nat -> option R) (mn k : nat) : option R :=
  match f k with
  | Some r => Some r
  | None =>
      match k with
      | 0 => None
      | S k' => if mn <=? k' then backtrack f mn k' else None
      end
  end.

(** [mtch its pos s caps]: match [its] against the text [s], which starts
    at absolute position [pos]; on success the end position and the
    captures.  A greedy repetition first takes as many characters as it
    can and gives them back one at a time until the rest matches. *)
Fixpoint mtch (its : list item) (pos : nat) (s : list ascii) (caps : captures)
  : option (nat * captures) :=
  match its with
  | [] => Some (pos, caps)
  | Atom p :: rest =>
      match s with
      | c :: s' => if p c then mtch rest (S pos) s' caps else None
      | [] => None
      end
  | Rep p mn :: rest =>
      if mn <=? run p s
      then backtrack (fun k => mtch rest (pos + k) (drop k s) caps) mn (run p s)
      else None
  | Save n :: rest => mtch rest pos s ((n, pos) :: caps)
  end.

(** [Pattern.search]: the match at the leftmost position that has one,
    trying positions [0 .. len s]. *)
Fixpoint search_from (pat : list item) (pos : nat) (s : list ascii)
  : option captures :=
  match mtch pat pos s [] with
  | Some (_, caps) => Some caps
  | None =>
      match s with
      | [] => None
      | _ :: s' => search_from pat (S pos) s'
      end
  end.

Definition re_search (pat : list item) (s : list ascii) : option captures :=
  search_from pat 0 s.

(** The most recent position saved in slot [n]. *)
Fixpoint slot (caps : captures) (n : nat) : option nat :=
  match caps with
  | [] => None
  | (m, p) :: caps' => if m =? n then Some p else slot caps' n
  end.

(** [Match.group(g)] of a match of the text [s]; [None] when the group did
    not participate. *)
Definition group (s : list ascii) (caps : captures) (g : nat)
  : option (list ascii) :=
  match slot caps (2 * g), slot caps (2 * g + 1) with
  | Some b, Some e => Some (take (e - b) (drop b s))
  | _, _ => None
  end.

(** ** The pattern of [detect_mongodb_object]

    The compiled pattern of line 39, item by item below: group 1 is
    [expression], group 2 is [value]. *)
Definition RE_MONGODB_OBJECT : list item :=
  [ Save 2;                    (* (?P<expression> *)
    Atom is_upper;             (* [A-Z]{1} *)
    Rep is_alpha 1;            (* [a-zA-Z]+ *)
    Atom (is_char "("%char);      (* \( *)
    Save 4;                    (* (?P<value> *)
    Rep not_newline 0;         (* .* *)
    Save 5;                    (* ) *)
    Atom (is_char ")"%char);      (* \) *)
    Save 3 ].                  (* ) *)

(** ** Replacement templates

    [re.sub] compiles its replacement string with
    [sre_parse.parse_template].  The pattern it is used with here is
    [re.escape(...)] of a text, which has no capture group, so
    [addgroup] accepts group 0 only (the whole match, spelt [\g<0>]) and
    raises [re.error] for every other group reference. *)

Inductive piece : Type :=
| PLit (c : ascii)      (* a literal character *)
| PMatch.               (* [\g<0>]: the whole match *)

Definition is_digit (c : ascii) : bool := in_range 48 57 c.
Definition is_octdigit (c : ascii) : bool := in_range 48 55 c.
Definition digit_val (c : ascii) : nat := nat_of_ascii c - 48.

(** [sre_parse.ESCAPES]. *)
Definition escape_char (c : ascii) : option ascii :=
  if Ascii.eqb c "a"%char then Some (ascii_of_nat 7)
  else if Ascii.eqb c "b"%char then Some (ascii_of_nat 8)
  else if Ascii.eqb c "f"%char then Some (ascii_of_nat 12)
  else if Ascii.eqb c "n"%char then Some (ascii_of_nat 10)
  else if Ascii.eqb c "r"%char then Some (ascii_of_nat 13)
  else if Ascii.eqb c "t"%char then Some (ascii_of_nat 9)
  else if Ascii.eqb c "v"%char then Some (ascii_of_nat 11)
  else if Ascii.eqb c BSLASH then Some BSLASH
  else None.

(** [str.isspace] on U+0000 .. U+00FF: what [int()] strips. *)
Definition py_space (c : ascii) : bool :=
  in_range 9 13 c || in_range 28 32 c
  || (nat_of_ascii c =? 133) || (nat_of_ascii c =? 160).

Fixpoint strip_left (s : list ascii) : list ascii :=
  match s with
  | c :: s' => if py_space c then strip_left s' else s
  | [] => []
  end.

Definition py_strip (s : list ascii) : list ascii :=
  reverse (strip_left (reverse (strip_left s))).

(** Digits of a base-10 [int()] literal equal to zero: [0], then any
    number of [0] or [_0]. *)
Fixpoint zero_digits_tail (s : list ascii) : bool :=
  match s with
  | [] => true
  | c :: s' =>
      if Ascii.eqb c "0"%char then zero_digits_tail s'
      else if Ascii.eqb c "_"%char then
        match s' with
        | d :: s'' => Ascii.eqb d "0"%char && zero_digits_tail s''
        | [] => false
        end
      else false
  end.

Definition zero_digits (s : list ascii) : bool :=
  match s with
  | c :: s' => Ascii.eqb c "0"%char && zero_digits_tail s'
  | [] => false
  end.

(** [\g<name>] is accepted with a pattern that has no group iff
    [int(name) == 0]: an identifier is looked up in the (empty) group
    index and raises, any other name goes through [int()], and a nonzero
    index fails [addgroup]. *)
Definition name_is_group0 (name : list ascii) : bool :=
  match py_strip name with
  | c :: s' =>
      if Ascii.eqb c "+"%char || Ascii.eqb c "-"%char then zero_digits s'
      else zero_digits (c :: s')
  | [] => false
  end.

(** [Tokenizer.getuntil(">", ...)]: the name and the rest after [>]. *)
Fixpoint getuntil_gt (s : list ascii) : option (list ascii * list ascii) :=
  match s with
  | [] => None
  | c :: s' =>
      if Ascii.eqb c ">"%char then Some ([], s')
      else match getuntil_gt s' with
           | Some (name, rest) => Some (c :: name, rest)
           | None => None
           end
  end.

Definition cons_piece (p : piece) (r : option (list piece))
  : option (list piece) :=
  match r with Some t => Some (p :: t) | None => None end.

(** [parse_template(repl, pattern)] for a [pattern] without groups;
    [None] is the [re.error] (or [IndexError]) it raises.  [fuel] bounds
    the number of tokens. *)
Fixpoint parse_tmpl (fuel : nat) (s : list ascii) : option (list piece) :=
  match fuel with
  | 0 => None
  | S f =>
    match s with
    | [] => Some []
    | c :: s1 =>
      if negb (Ascii.eqb c BSLASH) then cons_piece (PLit c) (parse_tmpl f s1)
      else
      match s1 with
      | [] => None                          (* bad escape (end of pattern) *)
      | e :: s2 =>
        if Ascii.eqb e "g"%char then
          match s2 with
          | l :: s3 =>
              if Ascii.eqb l "<"%char then
                match getuntil_gt s3 with
                | Some (name, s4) =>
                    if name_is_group0 name then cons_piece PMatch (parse_tmpl f s4)
                    else None               (* unknown / invalid group *)
                | None => None              (* missing >, unterminated name *)
                end
              else None                     (* missing < *)
          | [] => None
          end
        else if Ascii.eqb e "0"%char then
          (* \0 and up to two more octal digits *)
          match s2 with
          | d1 :: s3 =>
              if is_octdigit d1 then
                match s3 with
                | d2 :: s4 =>
                    if is_octdigit d2
                    then cons_piece (PLit (ascii_of_nat (8 * digit_val d1 + digit_val d2)))
                           (parse_tmpl f s4)
                    else cons_piece (PLit (ascii_of_nat (digit_val d1))) (parse_tmpl f s3)
                | [] => cons_piece (PLit (ascii_of_nat (digit_val d1))) (parse_tmpl f s3)
                end
              else cons_piece (PLit (ascii_of_nat 0)) (parse_tmpl f s2)
          | [] => cons_piece (PLit (ascii_of_nat 0)) (parse_tmpl f s2)
          end
        else if is_digit e then
          (* a three-digit octal escape, or a group reference \N / \NN,
             which names a group the pattern does not have *)
          match s2 with
          | d :: d3 :: s4 =>
              if is_digit d && is_octdigit e && is_octdigit d && is_octdigit d3 then
                let v := 64 * digit_val e + 8 * digit_val d + digit_val d3 in
                if 255 <? v then None
                else cons_piece (PLit (ascii_of_nat v)) (parse_tmpl f s4)
              else None
          | _ => None
          end
        else
          match escape_char e with
          | Some x => cons_piece (PLit x) (parse_tmpl f s2)
          | None =>
              if is_alpha e then None       (* bad escape \x *)
              else cons_piece (PLit BSLASH) (cons_piece (PLit e) (parse_tmpl f s2))
          end
      end
    end
  end.

Definition parse_template (repl : list ascii) : option (list piece) :=
  parse_tmpl (S (length repl)) repl.

(** [expand_template] for a match whose text is [whole]. *)
Fixpoint expand (t : list piece) (whole : list ascii) : list ascii :=
  match t with
  | [] => []
  | PLit c :: t' => c :: expand t' whole
  | PMatch :: t' => whole ++ expand t' whole
  end.

(** ** [re.sub] and [re.escape] *)

(** [re.escape(s)] backslash-escapes every character that is special in a
    pattern, so the compiled pattern is [s]'s characters as literals. *)
Definition re_escape (s : list ascii) : list item :=
  map (fun c => Atom (is_char c)) s.

(** The scan of [re.sub] with [count=0]: every non-overlapping match, left
    to right, is replaced by the expanded template; the text [s] starts at
    absolute position [pos].  An empty match (which the escaped pattern of
    a non-empty text never produces) is replaced and the scan moves one
    character on. *)
Fixpoint sub_from (fuel : nat) (pat : list item) (t : list piece) (pos : nat)
  (s : list ascii) : list ascii :=
  match fuel with
  | 0 => s
  | S f =>
    match mtch pat pos s [] with
    | Some (e, _) =>
        if e - pos =? 0 then
          expand t [] ++
          match s with
          | [] => []
          | c :: s' => c :: sub_from f pat t (S pos) s'
          end
        else expand t (take (e - pos) s) ++ sub_from f pat t e (drop (e - pos) s)
    | None =>
        match s with
        | [] => []
        | c :: s' => c :: sub_from f pat t (S pos) s'
        end
    end
  end.

(** [re.sub(pattern, repl, s)]; [None] is the [re.error] raised while
    compiling [repl]. *)
Definition re_sub (pat : list item) (repl s : list ascii) : option (list ascii) :=
  match parse_template repl with
  | Some t => Some (sub_from (S (length s)) pat t 0 s)
  | None => None
  end.

(** ** [fix_mongodb_objects] *)

(** [RE_MONGODB_OBJECT.search(line)] and its [groupdict()]: the texts of
    [expression] and [value]. *)
Definition mongodb_match (line : list ascii)
  : option (option (list ascii) * option (list ascii)) :=
  match re_search RE_MONGODB_OBJECT line with
  | Some caps => Some (group line caps 1, group line caps 2)
  | None => None
  end.

(** [replace_mongodb_object]:
    [re.sub(re.escape(matches.get('expression')), matches.get('value'), line)];
    a group that did not take part would be [None], on which [re.escape]
    raises. *)
Definition replace_mongodb_object (line : list ascii)
  (expression value : option (list ascii)) : option (list ascii) :=
  match expression, value with
  | Some expr, Some v => re_sub (re_escape expr) v line
  | _, _ => None
  end.

(** [detect_mongodb_object]. *)
Definition detect_mongodb_object (line : list ascii) : option (list ascii) :=
  match mongodb_match line with
  | Some (expression, value) => replace_mongodb_object line expression value
  | None => Some line
  end.

(** [fix_mongodb_objects(line)]; [None] when it raises. *)
Definition fix_mongodb_objects (line : list ascii) : option (list ascii) :=
  detect_mongodb_object line.


(** ** [update_json_file]

    Files are a map from paths to their raw contents.  [open(path)] in
    text mode translates ["\r\n"] and ["\r"] to ["\n"] (universal
    newlines); writing in text mode on a POSIX system writes ["\n"] as it
    is.  An exception is [None]. *)

Definition CR : ascii := ascii_of_nat 13.

Abbreviation files := (gmap string (list ascii)).

Fixpoint translate_newlines (s : list ascii) : list ascii :=
  match s with
  | [] => []
  | c :: s' =>
      if Ascii.eqb c CR then
        match s' with
        | d :: s'' => if Ascii.eqb d NL then NL :: translate_newlines s''
                      else NL :: translate_newlines s'
        | [] => [NL]
        end
      else c :: translate_newlines s'
  end.

(** [fp.readlines()]: the lines, each with its terminating newline (the
    last one may have none); [cur] is the current line, reversed. *)
Fixpoint readlines_acc (cur : list ascii) (s : list ascii) : list (list ascii) :=
  match s with
  | [] => match cur with [] => [] | _ => [reverse cur] end
  | c :: s' =>
      if Ascii.eqb c NL then reverse (c :: cur) :: readlines_acc [] s'
      else readlines_acc (c :: cur) s'
  end.

Definition readlines (s : list ascii) : list (list ascii) := readlines_acc [] s.

(** A state-and-exception monad over the files: an exception ([None])
    keeps the changes made to the files before it. *)
Definition io (A : Type) : Type := files -> option A * files.

Definition io_ret {A} (x : A) : io A := fun fs => (Some x, fs).
Definition io_bind {A B} (m : io A) (k : A -> io B) : io B :=
  fun fs => match m fs with
            | (Some x, fs') => k x fs'
            | (None, fs') => (None, fs')
            end.
Definition io_lift {A} (o : option A) : io A := fun fs => (o, fs).

Notation "x <- m ;; k" := (io_bind m (fun x => k))
  (at level 100, m at next level, right associativity).

(** [with open(path) as fp: lines = fp.readlines()]; a missing file raises. *)
Definition read_lines (path : string) : io (list (list ascii)) :=
  fun fs => match fs !! path with
            | Some raw => (Some (readlines (translate_newlines raw)), fs)
            | None => (None, fs)
            end.

(** [open(output_path, "w")]: creates or truncates the file. *)
Definition open_write (path : string) : io unit :=
  fun fs => (Some tt, <[path := []]> fs).

(** [fp_write.write(line)]: appends to the open file. *)
Definition write (path : string) (line : list ascii) : io unit :=
  fun fs => (Some tt, <[path := default [] (fs !! path) ++ line]> fs).

Fixpoint write_all (path : string) (lines : list (list ascii)) : io unit :=
  match lines with
  | [] => io_ret tt
  | l :: ls => _ <- write path l ;; write_all path ls
  end.

(** [list(map(fix_mongodb_objects, lines))]: the first exception aborts. *)
Fixpoint map_fix (lines : list (list ascii)) : option (list (list ascii)) :=
  match lines with
  | [] => Some []
  | l :: ls =>
      match fix_mongodb_objects l with
      | Some l' => match map_fix ls with
                   | Some ls' => Some (l' :: ls')
                   | None => None
                   end
      | None => None
      end
  end.

Definition update_json_file (path output_path : string) : io unit :=
  lines <- read_lines path ;;
  lines_fixed <- io_lift (map_fix lines) ;;
  _ <- open_write output_path ;;
  write_all output_path lines_fixed.

(** ** [read_udpated_json_file]

    The value [json.load] returns: an object becomes a [dict] with its
    members in document order (a key given twice keeps its last value),
    a number is kept as its literal. *)

Inductive pyval : Type :=
| PyNone
| PyBool (b : bool)
| PyNum (lit : list ascii)
| PyStr (s : list ascii)
| PyList (l : list pyval)
| PyDict (members : list (list ascii * pyval)).

Inductive py_exc : Type :=
| AttributeError | TypeError | IndexError | KeyError.

(** [d[k]] on a dict built from [members]: the last binding of [k]. *)
Fixpoint dict_lookup (k : list ascii) (members : list (list ascii * pyval))
  : option pyval :=
  match members with
  | [] => None
  | (k', v) :: ms =>
      match dict_lookup k ms with
      | Some w => Some w
      | None => if decide (k = k') then Some v else None
      end
  end.

Definition py_result (A : Type) : Type := py_exc + A.

Definition py_bind {A B} (r : py_result A) (k : A -> py_result B) : py_result B :=
  match r with inl e => inl e | inr x => k x end.

(** [x.get(k)]: only a dict has [get]; a missing key gives [None]. *)
Definition py_get (x : pyval) (k : list ascii) : py_result pyval :=
  match x with
  | PyDict ms => inr (default PyNone (dict_lookup k ms))
  | _ => inl AttributeError
  end.

(** [x[0]]. *)
Definition py_index0 (x : pyval) : py_result pyval :=
  match x with
  | PyList (v :: _) => inr v
  | PyList [] => inl IndexError
  | PyStr (c :: _) => inr (PyStr [c])
  | PyStr [] => inl IndexError
  | PyDict _ => inl KeyError          (* the keys of a loaded dict are strings *)
  | _ => inl TypeError
  end.

Record row : Type := {
  customer_id : pyval;
  rewards_amount : pyval;
  rewards_currency : pyval;
  grant_time : pyval }.

(** Lines 84-89 of [read_udpated_json_file], on the loaded [result]; the
    entries are evaluated in order.  (Reading and parsing the file, and
    building the [DataFrame] from the row, are not part of the model.) *)
Definition extract_row (result : pyval) : py_result row :=
  py_bind (py_get result (txt "member")) (fun m =>
  py_bind (py_get m (txt "customer_id")) (fun cid =>
  py_bind (py_get result (txt "rewards")) (fun r1 =>
  py_bind (py_get r1 (txt "amount")) (fun amt =>
  py_bind (py_get result (txt "rewards")) (fun r2 =>
  py_bind (py_get r2 (txt "currency")) (fun cur =>
  py_bind (py_get result (txt "rewards_results")) (fun rr =>
  py_bind (py_index0 rr) (fun rr0 =>
  py_bind (py_get rr0 (txt "grant_time")) (fun gt =>
  inr {| customer_id := cid; rewards_amount := amt;
         rewards_currency := cur; grant_time := gt |}))))))))).

(** ** Shapes of lines, for the statements *)

(** The text before the first newline. *)
Fixpoint line_part (s : list ascii) : list ascii :=
  match s with
  | c :: s' => if Ascii.eqb c NL then [] else c :: line_part s'
  | [] => []
  end.

(** An uppercase letter followed by one or more letters. *)
Definition identifier (id : list ascii) : Prop :=
  exists u ls, id = u :: ls /\ is_upper u = true /\ ls <> [] /\
               Forall (fun c => is_alpha c = true) ls.

(** The line has an identifier immediately followed by [(] and a [)]
    later on the same line. *)
Definition has_constructor (line : list ascii) : Prop :=
  exists pre id rest, line = pre ++ id ++ "("%char :: rest /\ identifier id /\
                      ")"%char ∈ line_part rest.

(** The text does not end with a letter. *)
Definition no_letter_end (s : list ascii) : bool :=
  match last s with Some c => negb (is_alpha c) | None => true end.

(** The index of the last [)] before the first newline. *)
Fixpoint last_rparen (s : list ascii) : option nat :=
  match s with
  | [] => None
  | c :: s' =>
      if Ascii.eqb c NL then None
      else match last_rparen s' with
           | Some j => Some (S j)
           | None => if is_char ")"%char c then Some 0 else None
           end
  end.

(** [needle] is a prefix of [s]. *)
Definition occurs_at (needle s : list ascii) : Prop := exists k, s = needle ++ k.

(** The line splits as [pre ++ id ++ "(" ++ v ++ ")" ++ post] around a
    constructor expression whose [)] is the last one on the line, and the
    two groups are the whole expression and its payload [v]. *)
Definition greedy_decomposition (line : list ascii)
    (ge gv : option (list ascii)) : Prop :=
  exists pre id v post : list ascii,
    line = pre ++ id ++ "("%char :: v ++ ")"%char :: post /\
    identifier id /\ (NL ∉ v) /\ (")"%char ∉ line_part post) /\
    ge = Some (id ++ "("%char :: v ++ [")"%char]) /\ gv = Some v.

(** A line ended by a carriage return and a newline. *)
Definition crlf_line : list ascii := txt "a" ++ [CR; NL].

(** A line ended by its newline, the only one it holds. *)
Definition terminated (line : list ascii) : Prop :=
  exists body, line = body ++ [NL] /\ NL ∉ body.

(** A line as [fp.readlines()] gives it: no newline, or one at its end. *)
Definition single_line (line : list ascii) : Prop :=
  NL ∉ line \/ terminated line.

(** The lines of [readlines]: terminated lines, then possibly one
    non-empty line without a newline. *)
Definition last_line_ok (r : list (list ascii)) : Prop :=
  r = [] \/ exists l, r = [l] /\ l <> [] /\ NL ∉ l.

(** ** Conversion of a file as the contract describes it

    Split a text into its lines, each keeping its terminator, normalise
    every line on its own, in order, and join the results. *)
Definition convert_text (text : list ascii) : option (list ascii) :=
  match mapM fix_mongodb_objects (readlines text) with
  | Some ls => Some (concat ls)
  | None => None
  end.

(** Read the source as it is stored, convert its text, and write the
    result to the destination. *)
Definition convert_file_spec (path output_path : string) (fs : files)
    : option unit * files :=
  match fs !! path with
  | None => (None, fs)
  | Some raw =>
      match convert_text raw with
      | Some out => (Some tt, <[output_path := out]> fs)
      | None => (None, fs)
      end
  end.

(** ** Sample inputs *)

(** A JSON line whose string holds the escape [\n]. *)
Definition escaped_newline_line : list ascii := txtq "  't': Da('a\nb')," ++ [NL].

(** A document whose [member] object has no [customer_id]. *)
Definition doc_without_customer_id : pyval :=
  PyDict [(txt "member", PyDict []);
          (txt "rewards", PyDict [(txt "amount", PyNum (txt "10.5"));
                                  (txt "currency", PyStr (txt "USD"))]);
          (txt "rewards_results",
             PyList [PyDict [(txt "grant_time", PyStr (txt "2021-01-01"))]])].

(** An export of one line, converted in place. *)
Definition export_line : list ascii := txtq "{'_id': ObjectId('x')}" ++ [NL].

(** * Properties of the matcher *)

Section Matcher.

Context {R : Type}.
Implicit Types (f g : nat -> option R).

Lemma backtrack_ext f g mn k :
  (forall j, f j = g j) -> backtrack f mn k = backtrack g mn k.
Proof.
  intros Hfg. induction k as [|k IH]; simpl; rewrite Hfg; [done|].
  destruct (g (S k)); [done|]. by rewrite IH.
Qed.

Lemma backtrack_none f mn k :
  (forall j, j <= k -> f j = None) -> backtrack f mn k = None.
Proof.
  intros H. induction k as [|k IH]; simpl; rewrite H by lia; [done|].
  destruct (mn <=? k); [|done]. apply IH. intros j Hj. apply H. lia.
Qed.

Lemma backtrack_only f mn k :
  (forall j, j < k -> f j = None) -> backtrack f mn k = f k.
Proof.
  intros H. destruct k as [|k]; simpl; destruct (f _) eqn:E; try done.
  destruct (mn <=? k); [|done]. apply backtrack_none. intros j Hj. apply H. lia.
Qed.

Lemma backtrack_shift f k :
  backtrack f 0 (S k) =
  match backtrack (fun j => f (S j)) 0 k with Some r => Some r | None => f 0 end.
Proof.
  induction k as [|k IH].
  - simpl. destruct (f 1); [done|]. by destruct (f 0).
  - change (backtrack f 0 (S (S k))) with
      (match f (S (S k)) with
       | Some r => Some r
       | None => if 0 <=? S k then backtrack f 0 (S k) else None end).
    change (backtrack (fun j => f (S j)) 0 (S k)) with
      (match f (S (S k)) with
       | Some r => Some r
       | None => if 0 <=? k then backtrack (fun j => f (S j)) 0 k else None end).
    destruct (f (S (S k))); [done|]. simpl. exact IH.
Qed.

End Matcher.

Lemma mtch_nil pos s caps : mtch [] pos s caps = Some (pos, caps).
Proof. reflexivity. Qed.

Lemma mtch_save n rest pos s caps :
  mtch (Save n :: rest) pos s caps = mtch rest pos s ((n, pos) :: caps).
Proof. reflexivity. Qed.

Lemma mtch_atom p rest pos s caps :
  mtch (Atom p :: rest) pos s caps =
  match s with
  | c :: s' => if p c then mtch rest (S pos) s' caps else None
  | [] => None
  end.
Proof. reflexivity. Qed.

Lemma mtch_rep p mn rest pos s caps :
  mtch (Rep p mn :: rest) pos s caps =
  if mn <=? run p s
  then backtrack (fun k => mtch rest (pos + k) (drop k s) caps) mn (run p s)
  else None.
Proof. reflexivity. Qed.

Lemma is_char_eq d c : is_char d c = true <-> c = d.
Proof. unfold is_char. apply Ascii.eqb_eq. Qed.

Lemma newline_not_rparen : is_char ")"%char NL = false.
Proof. reflexivity. Qed.

Lemma alpha_not_lparen c : is_alpha c = true -> is_char "("%char c = false.
Proof.
  intros H. destruct (is_char "("%char c) eqn:E; [|done].
  apply is_char_eq in E. subst. discriminate.
Qed.

(** The part of the pattern after [\(]: [.*] gives back characters until
    a [)] follows, so the value ends at the last [)] of the line. *)
Lemma mtch_tail q t c :
  mtch [Save 4; Rep not_newline 0; Save 5; Atom (is_char ")"%char); Save 3] q t c =
  match last_rparen t with
  | Some j => Some (S (q + j), (3, S (q + j)) :: (5, q + j) :: (4, q) :: c)
  | None => None
  end.
Proof.
  rewrite mtch_save, mtch_rep. change (0 <=? run not_newline t) with true. cbv iota.
  generalize ((4, q) :: c) as c'. intros c'.
  revert q. induction t as [|x t IH]; intros q.
  - reflexivity.
  - cbn [run last_rparen]. unfold not_newline.
    destruct (Ascii.eqb x NL) eqn:Ex; cbn [negb].
    + apply Ascii.eqb_eq in Ex. subst x. reflexivity.
    + rewrite backtrack_shift.
      rewrite (backtrack_ext _
                 (fun k => mtch [Save 5; Atom (is_char ")"%char); Save 3] (S q + k)
                             (drop k t) c')).
      2:{ intros j. cbn [drop]. by replace (q + S j) with (S q + j) by lia. }
      rewrite IH. destruct (last_rparen t) as [j|].
      * by replace (S q + j) with (q + S j) by lia.
      * simpl. destruct (is_char _ x); simpl; rewrite ?Nat.add_0_r; done.
Qed.

Lemma run_drop (p : ascii -> bool) r j :
  j < run p r -> exists x r', drop j r = x :: r' /\ p x = true.
Proof.
  revert j. induction r as [|x r IH]; intros j Hj; simpl in Hj; [lia|].
  destruct (p x) eqn:Ex; [|lia]. destruct j as [|j]; simpl; eauto.
  apply IH. lia.
Qed.

Lemma run_app (p : ascii -> bool) l x r :
  Forall (fun c => p c = true) l -> p x = false -> run p (l ++ x :: r) = length l.
Proof.
  intros Hl Hx. induction Hl as [|y l Hy Hl IH]; simpl.
  - by rewrite Hx.
  - by rewrite Hy, IH.
Qed.

Lemma run_take (p : ascii -> bool) r :
  Forall (fun c => p c = true) (take (run p r) r).
Proof.
  induction r as [|x r IH]; simpl; [constructor|].
  destruct (p x) eqn:Ex; simpl; constructor; auto.
Qed.

Lemma run_stop (p : ascii -> bool) r x t :
  drop (run p r) r = x :: t -> p x = false.
Proof.
  revert x t. induction r as [|y r IH]; intros x t H; simpl in H; [done|].
  destruct (p y) eqn:Ey; simpl in H; [eauto|]. by injection H as -> ->.
Qed.

(** The pattern at one position: an uppercase letter, the longest run of
    letters (at least one) after it, then [(] and the last [)] of the line. *)
Lemma mtch_RE pos s :
  mtch RE_MONGODB_OBJECT pos s [] =
  match s with
  | u :: r =>
      if is_upper u && (1 <=? run is_alpha r) then
        match drop (run is_alpha r) r with
        | x :: t =>
            if is_char "("%char x then
              let q := S (S (pos + run is_alpha r)) in
              match last_rparen t with
              | Some j => Some (S (q + j), [(3, S (q + j)); (5, q + j); (4, q); (2, pos)])
              | None => None
              end
            else None
        | [] => None
        end
      else None
  | [] => None
  end.
Proof.
  unfold RE_MONGODB_OBJECT. rewrite mtch_save, mtch_atom.
  destruct s as [|u r]; [done|].
  destruct (is_upper u); [|done]. cbn [andb].
  rewrite mtch_rep. destruct (1 <=? run is_alpha r) eqn:Hm; [|done].
  rewrite backtrack_only.
  - cbv beta. rewrite mtch_atom.
    destruct (drop (run is_alpha r) r) as [|x t]; [done|].
    destruct (is_char "("%char x); [|done].
    rewrite mtch_tail. by replace (S (S pos + run is_alpha r)) with (S (S (pos + run is_alpha r))) by lia.
  - intros j Hj. cbv beta. rewrite mtch_atom.
    destruct (run_drop is_alpha r j Hj) as (x & r' & -> & Hx).
    by rewrite alpha_not_lparen.
Qed.

Lemma is_char_neq d c : is_char d c = false <-> c <> d.
Proof. unfold is_char. apply Ascii.eqb_neq. Qed.

Lemma line_part_cons c s :
  Ascii.eqb c NL = false -> line_part (c :: s) = c :: line_part s.
Proof. intros E. simpl. by rewrite E. Qed.

Lemma last_rparen_none t : last_rparen t = None -> ")"%char ∉ line_part t.
Proof.
  induction t as [|c t IH]; simpl; intros H.
  - apply not_elem_of_nil.
  - destruct (Ascii.eqb c NL) eqn:E; [apply not_elem_of_nil|].
    destruct (last_rparen t); [done|].
    destruct (is_char ")"%char c) eqn:Ec; [done|].
    apply is_char_neq in Ec. apply not_elem_of_cons. auto.
Qed.

Lemma last_rparen_in t : ")"%char ∈ line_part t -> is_Some (last_rparen t).
Proof.
  intros Hin. destruct (last_rparen t) eqn:E; [eauto|].
  by apply last_rparen_none in E.
Qed.

Lemma last_rparen_some t j :
  last_rparen t = Some j ->
  exists v post, t = v ++ ")"%char :: post /\ length v = j /\ (NL ∉ v) /\
                 ")"%char ∉ line_part post.
Proof.
  revert j. induction t as [|c t IH]; simpl; intros j H; [done|].
  destruct (Ascii.eqb c NL) eqn:E; [done|].
  apply Ascii.eqb_neq in E.
  destruct (last_rparen t) as [j'|] eqn:Et.
  - injection H as <-. destruct (IH j' eq_refl) as (v & post & -> & <- & Hv & Hp).
    exists (c :: v), post. split_and!; auto.
    apply not_elem_of_cons. auto.
  - destruct (is_char ")"%char c) eqn:Ec; [|done]. injection H as <-.
    apply is_char_eq in Ec. subst c. exists [], t. split_and!; auto.
    + apply not_elem_of_nil.
    + by apply last_rparen_none.
Qed.

Lemma last_rparen_app v post :
  NL ∉ v -> ")"%char ∉ line_part post ->
  last_rparen (v ++ ")"%char :: post) = Some (length v).
Proof.
  intros Hv Hp. induction v as [|c v IH]; simpl.
  - destruct (last_rparen post) eqn:E; [|done].
    destruct (last_rparen_some _ _ E) as (v' & post' & -> & _ & Hv' & _).
    exfalso. apply Hp. clear -Hv'. induction v' as [|c v' IH]; simpl.
    + apply elem_of_cons. by left.
    + apply not_elem_of_cons in Hv' as [Hc Hv'].
      assert (Ascii.eqb c NL = false) as -> by by apply Ascii.eqb_neq.
      apply elem_of_cons. auto.
  - apply not_elem_of_cons in Hv as [Hc Hv].
    assert (Ascii.eqb c NL = false) as -> by by apply Ascii.eqb_neq.
    by rewrite IH.
Qed.

Lemma rparen_in_line_part v post :
  NL ∉ v -> ")"%char ∈ line_part (v ++ ")"%char :: post).
Proof.
  induction v as [|c v IH]; simpl; intros Hv.
  - apply elem_of_cons. by left.
  - apply not_elem_of_cons in Hv as [Hc Hv].
    assert (Ascii.eqb c NL = false) as -> by by apply Ascii.eqb_neq.
    apply elem_of_cons. auto.
Qed.

Lemma run_le (p : ascii -> bool) r : run p r <= length r.
Proof. induction r as [|x r IH]; simpl; [lia|]. destruct (p x); simpl; lia. Qed.

Lemma upper_alpha c : is_upper c = true -> is_alpha c = true.
Proof. unfold is_alpha. intros ->. apply orb_true_r. Qed.

Lemma lparen_not_alpha : is_alpha "("%char = false.
Proof. reflexivity. Qed.

Lemma mtch_RE_some pos s e caps :
  mtch RE_MONGODB_OBJECT pos s [] = Some (e, caps) ->
  exists id v post,
    s = id ++ "("%char :: v ++ ")"%char :: post /\ identifier id /\ (NL ∉ v) /\
    (")"%char ∉ line_part post) /\
    e = pos + length id + length v + 2 /\
    caps = [(3, e); (5, pos + length id + 1 + length v);
            (4, pos + length id + 1); (2, pos)].
Proof.
  rewrite mtch_RE. intros H.
  destruct s as [|u r]; [done|].
  destruct (is_upper u) eqn:Hu; [|done]. cbn [andb] in H.
  destruct (1 <=? run is_alpha r) eqn:Hm; [|done]. apply Nat.leb_le in Hm.
  destruct (drop (run is_alpha r) r) as [|x t] eqn:Hd; [done|].
  destruct (is_char "("%char x) eqn:Hx; [|done]. apply is_char_eq in Hx. subst x.
  destruct (last_rparen t) as [j|] eqn:Hl; [|done].
  injection H as <- <-.
  destruct (last_rparen_some _ _ Hl) as (v & post & -> & <- & Hv & Hp).
  pose proof (run_le is_alpha r) as Hle.
  exists (u :: take (run is_alpha r) r), v, post.
  assert (length (take (run is_alpha r) r) = run is_alpha r) as Hlen.
  { rewrite length_take. lia. }
  split_and!; auto.
  - simpl. f_equal. rewrite <- Hd. symmetry. apply take_drop.
  - exists u, (take (run is_alpha r) r). split_and!; auto.
    + intros E. rewrite E in Hlen. simpl in Hlen. lia.
    + apply run_take.
  - simpl. rewrite Hlen. lia.
  - simpl. rewrite Hlen. do 3 f_equal; f_equal; lia.
Qed.

Lemma mtch_RE_exact pos id v post :
  identifier id -> (NL ∉ v) -> (")"%char ∉ line_part post) ->
  mtch RE_MONGODB_OBJECT pos (id ++ "("%char :: v ++ ")"%char :: post) [] =
  Some (pos + length id + length v + 2,
        [(3, pos + length id + length v + 2); (5, pos + length id + 1 + length v);
         (4, pos + length id + 1); (2, pos)]).
Proof.
  intros (u & ls & -> & Hu & Hne & Hls) Hv Hp.
  rewrite mtch_RE. cbn [app].
  rewrite Hu, (run_app is_alpha ls "("%char) by done.
  assert ((1 <=? length ls) = true) as ->.
  { apply Nat.leb_le. destruct ls; simpl; [done|lia]. }
  cbn [andb]. rewrite drop_app_length. simpl (is_char _ _). cbv zeta.
  rewrite last_rparen_app by done. simpl. do 2 f_equal; repeat f_equal; lia.
Qed.

Lemma mtch_RE_complete pos id rest :
  identifier id -> ")"%char ∈ line_part rest ->
  is_Some (mtch RE_MONGODB_OBJECT pos (id ++ "("%char :: rest) []).
Proof.
  intros Hid Hin. destruct (last_rparen_in _ Hin) as [j Hj].
  destruct (last_rparen_some _ _ Hj) as (v & post & -> & _ & Hv & Hp).
  rewrite mtch_RE_exact by done. eauto.
Qed.

(** ** The leftmost search *)

Lemma search_from_some pat pos s caps :
  search_from pat pos s = Some caps ->
  exists k e, k <= length s /\ mtch pat (pos + k) (drop k s) [] = Some (e, caps) /\
              forall i, i < k -> mtch pat (pos + i) (drop i s) [] = None.
Proof.
  revert pos. induction s as [|x s IH]; intros pos H; simpl in H.
  - destruct (mtch pat pos [] []) as [[e c]|] eqn:E; [|done]. injection H as <-.
    exists 0, e. rewrite Nat.add_0_r. split_and!; auto. intros; lia.
  - destruct (mtch pat pos (x :: s) []) as [[e c]|] eqn:E.
    + injection H as <-. exists 0, e. rewrite Nat.add_0_r. split_and!; auto with lia.
    + destruct (IH _ H) as (k & e & Hk & Hm & Hi). exists (S k), e.
      simpl. rewrite Nat.add_succ_r. split_and!; [lia|done|].
      intros [|i] Hlt; simpl; [by rewrite Nat.add_0_r|].
      rewrite Nat.add_succ_r. apply Hi. lia.
Qed.

Lemma search_from_none pat pos s :
  search_from pat pos s = None ->
  forall k, k <= length s -> mtch pat (pos + k) (drop k s) [] = None.
Proof.
  revert pos. induction s as [|x s IH]; intros pos H k Hk; simpl in H.
  - destruct (mtch pat pos [] []) as [[e c]|] eqn:E; [done|].
    destruct k; [|simpl in Hk; lia]. by rewrite Nat.add_0_r.
  - destruct (mtch pat pos (x :: s) []) as [[e c]|] eqn:E; [done|].
    destruct k as [|k]; simpl; [by rewrite Nat.add_0_r|].
    rewrite Nat.add_succ_r. apply (IH (S pos)); [done|]. simpl in Hk. lia.
Qed.

Lemma search_from_at pat pos s k e caps :
  k <= length s ->
  (forall i, i < k -> mtch pat (pos + i) (drop i s) [] = None) ->
  mtch pat (pos + k) (drop k s) [] = Some (e, caps) ->
  search_from pat pos s = Some caps.
Proof.
  revert pos k. induction s as [|x s IH]; intros pos k Hk Hi Hm; simpl.
  - destruct k; [|simpl in Hk; lia]. rewrite Nat.add_0_r in Hm. simpl in Hm. by rewrite Hm.
  - destruct k as [|k].
    + rewrite Nat.add_0_r in Hm. simpl in Hm. by rewrite Hm.
    + specialize (Hi 0 ltac:(lia)) as H0. rewrite Nat.add_0_r in H0. simpl in H0.
      rewrite H0. apply (IH _ k).
      * simpl in Hk. lia.
      * intros i Hlt. pose proof (Hi (S i) ltac:(lia)) as Hs.
        simpl in Hs. rewrite Nat.add_succ_r in Hs. exact Hs.
      * simpl in Hm. rewrite Nat.add_succ_r in Hm. exact Hm.
Qed.

(** ** What [detect_mongodb_object] finds *)

Lemma take_expression id v post :
  take (length id + length v + 2) (id ++ "("%char :: v ++ ")"%char :: post) =
  id ++ "("%char :: v ++ [")"%char].
Proof.
  assert (id ++ "("%char :: v ++ ")"%char :: post =
          (id ++ "("%char :: v ++ [")"%char]) ++ post) as ->.
  { rewrite <- app_assoc. simpl. by rewrite <- app_assoc. }
  apply take_app_length'. rewrite length_app. simpl. rewrite length_app. simpl. lia.
Qed.

Lemma take_value id v post :
  take (length v) (drop (length id + 1) (id ++ "("%char :: v ++ ")"%char :: post)) = v.
Proof. rewrite drop_app_add. simpl. apply take_app_length. Qed.

Lemma groups_at line k id v post :
  drop k line = id ++ "("%char :: v ++ ")"%char :: post ->
  let caps := [(3, k + length id + length v + 2); (5, k + length id + 1 + length v);
               (4, k + length id + 1); (2, k)] in
  group line caps 1 = Some (id ++ "("%char :: v ++ [")"%char]) /\
  group line caps 2 = Some v.
Proof.
  intros Hd caps. unfold group, caps. simpl (slot _ _). split.
  - replace (k + length id + length v + 2 - k) with (length id + length v + 2) by lia.
    rewrite Hd. by rewrite take_expression.
  - replace (k + length id + 1 + length v - (k + length id + 1)) with (length v) by lia.
    replace (k + length id + 1) with (k + (length id + 1)) by lia.
    rewrite <- drop_drop, Hd. by rewrite take_value.
Qed.

Lemma mongodb_match_some line ge gv :
  mongodb_match line = Some (ge, gv) ->
  exists pre id v post : list ascii,
    line = pre ++ id ++ "("%char :: v ++ ")"%char :: post /\
    identifier id /\ (NL ∉ v) /\ (")"%char ∉ line_part post) /\
    ge = Some (id ++ "("%char :: v ++ [")"%char]) /\ gv = Some v /\
    forall i, i < length pre -> mtch RE_MONGODB_OBJECT i (drop i line) [] = None.
Proof.
  unfold mongodb_match, re_search. intros H.
  destruct (search_from RE_MONGODB_OBJECT 0 line) as [caps|] eqn:Hs; [|done].
  injection H as <- <-.
  destruct (search_from_some _ _ _ _ Hs) as (k & e & Hk & Hm & Hi).
  destruct (mtch_RE_some _ _ _ _ Hm) as (id & v & post & Hd & Hid & Hv & Hp & -> & ->).
  exists (take k line), id, v, post.
  assert (length (take k line) = k) as Hlen by (rewrite length_take; lia).
  simpl (0 + k) in *.
  destruct (groups_at line k id v post Hd) as [G1 G2].
  split_and!; auto.
  - rewrite <- Hd. symmetry. apply take_drop.
  - rewrite Hlen. exact Hi.
Qed.

Lemma mongodb_match_none line :
  mongodb_match line = None <-> ~ has_constructor line.
Proof.
  unfold mongodb_match, re_search. split.
  - intros H (pre & id & rest & -> & Hid & Hin).
    destruct (search_from RE_MONGODB_OBJECT 0 _) eqn:Hs; [done|].
    pose proof (search_from_none _ _ _ Hs (length pre)) as Hn.
    rewrite length_app, drop_app_length in Hn.
    destruct (mtch_RE_complete (0 + length pre) id rest Hid Hin) as [r Hr].
    rewrite Hn in Hr; [done|lia].
  - intros Hno. destruct (search_from RE_MONGODB_OBJECT 0 line) as [caps|] eqn:Hs; [|done].
    exfalso. apply Hno.
    destruct (search_from_some _ _ _ _ Hs) as (k & e & Hk & Hm & _).
    destruct (mtch_RE_some _ _ _ _ Hm) as (id & v & post & Hd & Hid & Hv & _).
    exists (take k line), id, (v ++ ")"%char :: post). split_and!; auto.
    + rewrite <- Hd. symmetry. apply take_drop.
    + by apply rparen_in_line_part.
Qed.

(** ** The literal replacement of [re.sub(re.escape(e), ...)] *)

Lemma mtch_escape_app needle pos k caps :
  mtch (re_escape needle) pos (needle ++ k) caps = Some (pos + length needle, caps).
Proof.
  revert pos. induction needle as [|c n IH]; intros pos; simpl.
  - by rewrite Nat.add_0_r.
  - unfold is_char. rewrite Ascii.eqb_refl. rewrite IH. f_equal. f_equal. lia.
Qed.

Lemma mtch_escape_some needle pos s caps e c :
  mtch (re_escape needle) pos s caps = Some (e, c) -> exists k, s = needle ++ k.
Proof.
  revert pos s. induction needle as [|d n IH]; intros pos s H; simpl in H.
  - by exists s.
  - destruct s as [|x s]; [done|]. destruct (is_char d x) eqn:E; [|done].
    apply is_char_eq in E as ->. destruct (IH _ _ H) as [k ->]. by exists k.
Qed.

Lemma sub_copy needle t s pos f :
  length s < f ->
  (forall k, k <= length s -> ~ occurs_at needle (drop k s)) ->
  sub_from f (re_escape needle) t pos s = s.
Proof.
  revert pos f. induction s as [|x s IH]; intros pos f Hf Hno; destruct f as [|f]; simpl in Hf; try lia.
  - simpl. destruct (mtch (re_escape needle) pos [] []) as [[e c]|] eqn:E; [|done].
    exfalso. apply (Hno 0); [simpl; lia|]. eapply mtch_escape_some; eauto.
  - cbn [sub_from]. destruct (mtch (re_escape needle) pos (x :: s) []) as [[e c]|] eqn:E.
    + exfalso. apply (Hno 0); [simpl; lia|]. eapply mtch_escape_some; eauto.
    + f_equal. apply IH; [lia|]. intros k Hk. apply (Hno (S k)). simpl. lia.
Qed.

Lemma sub_once needle t pre post pos f :
  needle <> [] ->
  length (pre ++ needle ++ post) < f ->
  (forall k, k < length pre -> ~ occurs_at needle (drop k (pre ++ needle ++ post))) ->
  (forall k, k <= length post -> ~ occurs_at needle (drop k post)) ->
  sub_from f (re_escape needle) t pos (pre ++ needle ++ post) =
  pre ++ expand t needle ++ post.
Proof.
  intros Hne. revert pos f. induction pre as [|x pre IH]; intros pos f Hf Hpre Hpost;
    destruct f as [|f]; simpl in Hf; try lia.
  - simpl. rewrite mtch_escape_app.
    replace (pos + length needle - pos) with (length needle) by lia.
    destruct (length needle =? 0) eqn:E.
    + apply Nat.eqb_eq, length_zero_iff_nil in E. done.
    + apply Nat.eqb_neq in E. rewrite take_app_length, drop_app_length. f_equal.
      apply sub_copy; [rewrite length_app in Hf; lia|exact Hpost].
  - cbn [sub_from]. destruct (mtch (re_escape needle) pos _ []) as [[e c]|] eqn:E.
    + exfalso. apply (Hpre 0); [simpl; lia|]. eapply mtch_escape_some; eauto.
    + simpl. f_equal. apply IH; [lia| |exact Hpost].
      intros k Hk. apply (Hpre (S k)). simpl. lia.
Qed.

(** A replacement string without a backslash is a literal. *)
Lemma parse_tmpl_plain fuel v :
  length v < fuel -> BSLASH ∉ v -> parse_tmpl fuel v = Some (map PLit v).
Proof.
  revert fuel. induction v as [|c v IH]; intros [|fuel] Hf Hv; simpl in Hf; try lia; [done|].
  apply not_elem_of_cons in Hv as [Hc Hv]. simpl.
  assert (Ascii.eqb c BSLASH = false) as -> by by apply Ascii.eqb_neq.
  simpl. rewrite IH; [done|lia|done].
Qed.

Lemma expand_plain v w : expand (map PLit v) w = v.
Proof. induction v as [|c v IH]; simpl; congruence. Qed.

(** ** Where a match can start *)

Lemma run_prefix (p : ascii -> bool) l r :
  Forall (fun c => p c = true) l \/
  exists x l2, drop (run p (l ++ r)) (l ++ r) = x :: l2 /\ x ∈ l.
Proof.
  induction l as [|y l IH]; [left; constructor|]. simpl.
  destruct (p y) eqn:Ey.
  - destruct IH as [IH|(x & l2 & Hd & Hx)].
    + left. by constructor.
    + right. exists x, l2. split; [done|]. by apply elem_of_cons; right.
  - right. exists y, (l ++ r). split; [done|]. by apply elem_of_cons; left.
Qed.

Lemma last_alpha u l :
  is_alpha u = true -> Forall (fun c => is_alpha c = true) l ->
  exists c, last (u :: l) = Some c /\ is_alpha c = true.
Proof.
  revert u. induction l as [|y l IH]; intros u Hu Hl; simpl; [eauto|].
  inversion Hl as [|? ? Hy Hl']; subst. destruct (IH y Hy Hl') as (c & Hc & Ha).
  exists c. split; [|done]. simpl in Hc. destruct l; done.
Qed.

(** With no [(] and no trailing letter, nothing can match inside [pre]. *)
Lemma no_match_in_prefix pre rest i :
  "("%char ∉ pre -> no_letter_end pre = true -> i < length pre ->
  mtch RE_MONGODB_OBJECT i (drop i (pre ++ rest)) [] = None.
Proof.
  intros Hno Hend Hi.
  destruct (lookup_lt_is_Some_2 pre i Hi) as [u Hu].
  pose proof (take_drop_middle pre i u Hu) as Hsplit.
  assert (length (take i pre) = i) as Hlen by (rewrite length_take; lia).
  rewrite <- Hsplit, <- app_assoc, drop_app_length' by done. simpl (_ ++ _).
  rewrite mtch_RE.
  destruct (is_upper u) eqn:Hup; [|done]. cbn [andb].
  destruct (1 <=? _); [|done].
  destruct (run_prefix is_alpha (drop (S i) pre) rest) as [Hall|(x & l2 & Hd & Hx)].
  - exfalso. destruct (last_alpha u (drop (S i) pre) (upper_alpha _ Hup) Hall) as (c & Hc & Ha).
    unfold no_letter_end in Hend. rewrite <- Hsplit, last_app_cons, Hc, Ha in Hend.
    discriminate.
  - rewrite Hd. destruct (is_char "("%char x) eqn:Ex; [|done].
    apply is_char_eq in Ex. subst x. exfalso. apply Hno.
    rewrite <- Hsplit. apply elem_of_app. right. by apply elem_of_cons; right.
Qed.

Lemma line_part_sub x s : x ∈ line_part s -> x ∈ s.
Proof.
  induction s as [|c s IH]; simpl; [done|].
  destruct (Ascii.eqb c NL); [intros Hx; by apply elem_of_nil in Hx|].
  rewrite !elem_of_cons. intros [->|H]; auto.
Qed.

Lemma elem_of_drop_sub (x : ascii) k s : x ∈ drop k s -> x ∈ s.
Proof. intros H. rewrite <- (take_drop k s). apply elem_of_app. by right. Qed.

Lemma expr_app id v post :
  id ++ "("%char :: v ++ ")"%char :: post = (id ++ "("%char :: v ++ [")"%char]) ++ post.
Proof. rewrite <- app_assoc. simpl. by rewrite <- app_assoc. Qed.

(** ** [fix_mongodb_objects] on a line with a constructor expression *)

Lemma fix_mongodb_objects_at pre id v post :
  ("("%char ∉ pre) -> no_letter_end pre = true -> identifier id -> (NL ∉ v) ->
  (")"%char ∉ post) ->
  fix_mongodb_objects (pre ++ id ++ "("%char :: v ++ ")"%char :: post) =
  match parse_template v with
  | Some t => Some (pre ++ expand t (id ++ "("%char :: v ++ [")"%char]) ++ post)
  | None => None
  end.
Proof.
  intros Hpre Hend Hid Hv Hpost.
  assert (")"%char ∉ line_part post) as Hlp.
  { intros Hin. apply Hpost. by apply line_part_sub. }
  set (line := pre ++ id ++ "("%char :: v ++ ")"%char :: post).
  assert (drop (length pre) line = id ++ "("%char :: v ++ ")"%char :: post) as Hd
    by apply drop_app_length.
  unfold fix_mongodb_objects, detect_mongodb_object, mongodb_match, re_search.
  rewrite (search_from_at _ 0 line (length pre)
             (length pre + length id + length v + 2)
             [(3, length pre + length id + length v + 2);
              (5, length pre + length id + 1 + length v);
              (4, length pre + length id + 1); (2, length pre)]).
  2:{ unfold line. rewrite length_app. lia. }
  2:{ intros i Hi. by apply no_match_in_prefix. }
  2:{ simpl (0 + _). rewrite Hd. by apply mtch_RE_exact. }
  destruct (groups_at line (length pre) id v post Hd) as [G1 G2].
  rewrite G1, G2. unfold replace_mongodb_object, re_sub.
  destruct (parse_template v) as [t|]; [|done]. f_equal.
  unfold line. rewrite expr_app. apply sub_once.
  - destruct Hid as (u & ls & -> & _). done.
  - rewrite <- expr_app. lia.
  - intros k Hk [r Hr]. rewrite <- !expr_app in Hr. fold line in Hr.
    destruct (mtch_RE_complete k id (v ++ ")"%char :: r) Hid
                (rparen_in_line_part v r Hv)) as [m Hm].
    rewrite <- Hr in Hm. unfold line in Hm.
    rewrite no_match_in_prefix in Hm; done.
  - intros k Hk [r Hr]. apply Hpost. apply (elem_of_drop_sub _ k).
    rewrite Hr. apply elem_of_app. left. apply elem_of_app. right.
    apply elem_of_cons. right. apply elem_of_app. right. by apply elem_of_cons; left.
Qed.

(** Without a backslash in the payload the replacement is literal. *)
Lemma fix_mongodb_objects_plain pre id v post :
  ("("%char ∉ pre) -> no_letter_end pre = true -> identifier id -> (NL ∉ v) ->
  (BSLASH ∉ v) -> (")"%char ∉ post) ->
  fix_mongodb_objects (pre ++ id ++ "("%char :: v ++ ")"%char :: post) =
  Some (pre ++ v ++ post).
Proof.
  intros Hpre Hend Hid Hv Hb Hpost.
  rewrite fix_mongodb_objects_at by done.
  unfold parse_template. rewrite parse_tmpl_plain by (done || lia).
  by rewrite expand_plain.
Qed.

(** Without a constructor expression the line comes back unchanged. *)
Lemma fix_mongodb_objects_none line :
  ~ has_constructor line -> fix_mongodb_objects line = Some line.
Proof.
  intros H. apply mongodb_match_none in H.
  unfold fix_mongodb_objects, detect_mongodb_object. by rewrite H.
Qed.

(** * Properties of [update_json_file] *)

Lemma write_all_spec path ls fs c :
  fs !! path = Some c ->
  write_all path ls fs = (Some tt, <[path := c ++ concat ls]> fs).
Proof.
  revert fs c. induction ls as [|l ls IH]; intros fs c Hc; cbn [write_all concat].
  - rewrite app_nil_r. unfold io_ret. by rewrite insert_id.
  - unfold io_bind, write. rewrite Hc. cbn [default].
    rewrite (IH _ (c ++ l)) by apply lookup_insert_eq.
    by rewrite insert_insert_eq, app_assoc.
Qed.

(** The whole input is read and normalised before the output is opened;
    the output then holds the normalised lines and nothing else changes. *)
Lemma update_json_file_eq path output_path fs :
  update_json_file path output_path fs =
  match fs !! path with
  | None => (None, fs)
  | Some raw =>
      match map_fix (readlines (translate_newlines raw)) with
      | Some ls => (Some tt, <[output_path := concat ls]> fs)
      | None => (None, fs)
      end
  end.
Proof.
  unfold update_json_file, io_bind, read_lines, io_lift, open_write.
  destruct (fs !! path) as [raw|]; [|done].
  destruct (map_fix _) as [ls|]; [|done].
  rewrite (write_all_spec _ _ _ []) by apply lookup_insert_eq.
  by rewrite insert_insert_eq.
Qed.

Lemma translate_newlines_no_cr s : CR ∉ s -> translate_newlines s = s.
Proof.
  induction s as [|c s IH]; intros H; [done|].
  apply not_elem_of_cons in H as [Hc H]. simpl.
  assert (Ascii.eqb c CR = false) as -> by by apply Ascii.eqb_neq.
  by rewrite IH.
Qed.

Lemma readlines_acc_concat cur s :
  concat (readlines_acc cur s) = reverse cur ++ s.
Proof.
  revert cur. induction s as [|c s IH]; intros cur; simpl.
  - destruct cur; simpl; [done|]. by rewrite app_nil_r.
  - destruct (Ascii.eqb c NL).
    + simpl. rewrite IH, reverse_cons. simpl. by rewrite <- app_assoc.
    + rewrite IH, reverse_cons, <- app_assoc. done.
Qed.

(** [readlines] keeps the line terminators: joining the lines gives back
    the text. *)
Lemma readlines_concat s : concat (readlines s) = s.
Proof. apply readlines_acc_concat. Qed.

(** * Properties of [read_udpated_json_file] *)

Lemma extract_row_eq result :
  extract_row result =
  match result with
  | PyDict ms =>
      match default PyNone (dict_lookup (txt "member") ms),
            default PyNone (dict_lookup (txt "rewards") ms),
            default PyNone (dict_lookup (txt "rewards_results") ms) with
      | PyDict m, PyDict rw, rr =>
          py_bind (py_index0 rr) (fun rr0 =>
          py_bind (py_get rr0 (txt "grant_time")) (fun gt =>
          inr {| customer_id := default PyNone (dict_lookup (txt "customer_id") m);
                 rewards_amount := default PyNone (dict_lookup (txt "amount") rw);
                 rewards_currency := default PyNone (dict_lookup (txt "currency") rw);
                 grant_time := gt |}))
      | PyDict _, _, _ => inl AttributeError
      | _, _, _ => inl AttributeError
      end
  | _ => inl AttributeError
  end.
Proof.
  destruct result as [| | | | |ms]; try reflexivity.
  unfold extract_row. cbn [py_get py_bind].
  destruct (default PyNone (dict_lookup (txt "member") ms)); try reflexivity;
  destruct (default PyNone (dict_lookup (txt "rewards") ms)); reflexivity.
Qed.

Lemma map_fix_Forall2 lines ls :
  map_fix lines = Some ls <->
  Forall2 (fun l l' => fix_mongodb_objects l = Some l') lines ls.
Proof.
  revert ls. induction lines as [|l lines IH]; intros ls; simpl.
  - split; [intros [= <-]; constructor|intros H; by inversion H].
  - destruct (fix_mongodb_objects l) as [l'|] eqn:E.
    + destruct (map_fix lines) as [ls'|] eqn:E2.
      * split.
        -- intros [= <-]. constructor; [done|]. by apply IH.
        -- intros H. inversion H as [|? l'' ? ls'' Hl Hls]; subst.
           rewrite E in Hl. injection Hl as ->. apply IH in Hls. congruence.
      * split; [done|]. intros H. inversion H as [|? l'' ? ls'' Hl Hls]; subst.
        apply IH in Hls. congruence.
    + split; [done|]. intros H. inversion H as [|? l'' ? ls'' Hl Hls]; subst. congruence.
Qed.

Lemma identifier_alpha id c : identifier id -> c ∈ id -> is_alpha c = true.
Proof.
  intros (u & ls & -> & Hu & _ & Hls) Hc. apply elem_of_cons in Hc as [->|Hc].
  - by apply upper_alpha.
  - rewrite Forall_forall in Hls. by apply Hls.
Qed.

Lemma identifier_no_char d id :
  is_alpha d = false -> identifier id -> d ∉ id.
Proof. intros Hd Hid Hin. rewrite (identifier_alpha id d Hid Hin) in Hd. discriminate. Qed.

(** No constructor expression is left once the only [(] of a line has no
    [)] after it. *)
Lemma no_constructor_split a post :
  ("("%char ∉ a) -> (")"%char ∉ post) -> ~ has_constructor (a ++ post).
Proof.
  intros Ha Hpost (pre2 & id2 & rest2 & Heq & _ & Hin).
  apply line_part_sub in Hin.
  rewrite app_assoc in Heq.
  destruct (List.app_eq_app _ _ _ _ Heq) as [k [[Hk1 Hk2]|[Hk1 Hk2]]].
  - destruct k as [|x k].
    + simpl in Hk2. apply Hpost. rewrite <- Hk2. by apply elem_of_cons; right.
    + simpl in Hk2. injection Hk2 as Hx _. subst x. apply Ha. rewrite Hk1.
      apply elem_of_app. right. by apply elem_of_cons; left.
  - apply Hpost. rewrite Hk2. apply elem_of_app. right. by apply elem_of_cons; right.
Qed.

Lemma notin_second_expression (d : ascii) id2 v1 mid v2 :
  d <> ")"%char -> d <> "("%char -> d ∉ id2 ->
  d ∉ v1 ++ mid ++ v2 -> d ∉ v1 ++ ")"%char :: mid ++ id2 ++ "("%char :: v2.
Proof.
  intros Hr Hl Hi H Hin. apply H.
  repeat (rewrite elem_of_app in Hin || rewrite elem_of_cons in Hin).
  rewrite !elem_of_app. tauto.
Qed.

Lemma map_fix_mapM lines : map_fix lines = mapM fix_mongodb_objects lines.
Proof.
  induction lines as [|l ls IH]; [reflexivity|]. simpl.
  destruct (fix_mongodb_objects l); [|reflexivity]. simpl.
  rewrite IH. by destruct (mapM fix_mongodb_objects ls).
Qed.

(** * The claims *)

(** C1 (code_bug).  The claim: the matched expression is replaced by its
    payload as plain characters, whatever characters the payload holds.
    The payload is passed to [re.sub] as a replacement template, not as
    text: on the line [Da("a\\b")], a JSON string holding an escaped
    backslash, the two backslashes become one in the result. *)
Theorem C1_payload_read_as_template :
  fix_mongodb_objects (txtq "Da('a\\b')") = Some (txtq "'a\b'") /\
  txtq "'a\b'" <> txtq "'a\\b'".
Proof. split; [vm_compute; reflexivity|discriminate]. Qed.

(** C2 (code_bug).  The claim: the output file has as many lines as the
    input file.  A one-line file whose JSON string holds the escape [\n]
    comes out as two lines: the template expansion of the payload turns
    the two characters [\n] into a newline (the defect of C1). *)
Theorem C2_escaped_newline_splits_line :
  update_json_file "export.json" "fixed.json" {["export.json" := escaped_newline_line]} =
    (Some tt, <["fixed.json" := txtq "  't': 'a" ++ [NL] ++ txtq "b'," ++ [NL]]>
                {["export.json" := escaped_newline_line]}) /\
  length (readlines escaped_newline_line) = 1 /\
  length (readlines (txtq "  't': 'a" ++ [NL] ++ txtq "b'," ++ [NL])) = 2.
Proof.
  rewrite update_json_file_eq, lookup_singleton_eq.
  split_and!; vm_compute; reflexivity.
Qed.

(** C3 (corrected), counterexample.  A document whose [member] object has
    no [customer_id] is projected without an error: [.get] gives [None]
    for the missing key, and the row holds it. *)
Lemma C3_missing_leaf_is_none :
  extract_row doc_without_customer_id =
  inr {| customer_id := PyNone; rewards_amount := PyNum (txt "10.5");
         rewards_currency := PyStr (txt "USD");
         grant_time := PyStr (txt "2021-01-01") |}.
Proof. vm_compute. reflexivity. Qed.

(** C3 (corrected), amended.  The row-building step (lines 84-89, before
    the [DataFrame] is made) raises exactly when the document is not an
    object, or its [member] or [rewards] entry is missing or not an
    object, or its [rewards_results] entry is not a non-empty array whose
    first element is an object.  Otherwise that step raises nothing, and a
    missing [customer_id], [amount], [currency] or [grant_time] gives
    [None] in the row. *)
Theorem C3_projection_errors (result : pyval) :
  ((exists e, extract_row result = inl e) <->
   ~ exists ms m rw g rest,
       result = PyDict ms /\
       dict_lookup (txt "member") ms = Some (PyDict m) /\
       dict_lookup (txt "rewards") ms = Some (PyDict rw) /\
       dict_lookup (txt "rewards_results") ms = Some (PyList (PyDict g :: rest))) /\
  (forall ms m rw g rest,
       result = PyDict ms ->
       dict_lookup (txt "member") ms = Some (PyDict m) ->
       dict_lookup (txt "rewards") ms = Some (PyDict rw) ->
       dict_lookup (txt "rewards_results") ms = Some (PyList (PyDict g :: rest)) ->
       extract_row result =
       inr {| customer_id := default PyNone (dict_lookup (txt "customer_id") m);
              rewards_amount := default PyNone (dict_lookup (txt "amount") rw);
              rewards_currency := default PyNone (dict_lookup (txt "currency") rw);
              grant_time := default PyNone (dict_lookup (txt "grant_time") g) |}).
Proof.
  split.
  - split.
    + intros [e He] (ms & m & rw & g & rest & -> & Hm & Hr & Hrr).
      rewrite extract_row_eq, Hm, Hr, Hrr in He. discriminate.
    + intros Hno. rewrite extract_row_eq.
      destruct result as [| | | | |ms]; try by eexists.
      destruct (dict_lookup (txt "member") ms) as [[| | | | |m]|] eqn:Hm;
        try (cbn; by eexists).
      destruct (dict_lookup (txt "rewards") ms) as [[| | | | |rw]|] eqn:Hr;
        try (cbn; by eexists).
      destruct (dict_lookup (txt "rewards_results") ms) as [[| | |[|c s]|[|x rest]|]|] eqn:Hrr;
        try (cbn; by eexists).
      destruct x as [| | | | |g]; try (cbn; by eexists).
      exfalso. apply Hno. by exists ms, m, rw, g, rest.
  - intros ms m rw g rest -> Hm Hr Hrr. by rewrite extract_row_eq, Hm, Hr, Hrr.
Qed.

Lemma C3_projection_errors_witness :
  (exists e, extract_row (PyDict []) = inl e) /\
  extract_row doc_without_customer_id =
  inr {| customer_id := PyNone; rewards_amount := PyNum (txt "10.5");
         rewards_currency := PyStr (txt "USD");
         grant_time := PyStr (txt "2021-01-01") |}.
Proof.
  split.
  - apply (proj1 (C3_projection_errors (PyDict []))).
    intros (ms & m & rw & g & rest & Hd & Hm & _). injection Hd as <-. discriminate.
  - apply (proj2 (C3_projection_errors doc_without_customer_id)
             (match doc_without_customer_id with PyDict ms => ms | _ => [] end)
             [] [(txt "amount", PyNum (txt "10.5")); (txt "currency", PyStr (txt "USD"))]
             [(txt "grant_time", PyStr (txt "2021-01-01"))] []); vm_compute; reflexivity.
Defined.

(** C4 (corrected), counterexample.  On a line with two constructor
    expressions the greedy match runs from the first identifier to the
    last [)]: the second expression loses its [)], and the text is not
    the line with only the first expression replaced. *)
Lemma C4_two_expressions :
  fix_mongodb_objects (txt "Ab(x), Cd(y)") = Some (txt "x), Cd(y") /\
  txt "x), Cd(y" <> txt "x, Cd(y)".
Proof. split; [vm_compute; reflexivity|discriminate]. Qed.

(** C4 (corrected), amended.  One search, one replacement: on a line with
    two constructor expressions (no [(] and no trailing letter before the
    first, no [)] after the second, no newline or backslash inside), the
    first identifier with its [(] and the last [)] of the line are
    removed, and everything between them is kept, the second expression
    included without its [)]. *)
Theorem C4_single_greedy_match pre id1 v1 mid id2 v2 post :
  ("("%char ∉ pre) -> no_letter_end pre = true ->
  identifier id1 -> identifier id2 ->
  (NL ∉ v1 ++ mid ++ v2) -> (BSLASH ∉ v1 ++ mid ++ v2) -> (")"%char ∉ post) ->
  fix_mongodb_objects
    (pre ++ id1 ++ "("%char :: v1 ++ ")"%char :: mid ++ id2 ++ "("%char :: v2 ++ ")"%char :: post) =
  Some (pre ++ v1 ++ ")"%char :: mid ++ id2 ++ "("%char :: v2 ++ post).
Proof.
  intros Hpre Hend Hid1 Hid2 Hnl Hbs Hpost.
  pose proof (fix_mongodb_objects_plain pre id1
                (v1 ++ ")"%char :: mid ++ id2 ++ "("%char :: v2) post) as Hfix.
  rewrite <- !app_assoc in Hfix. simpl in Hfix. rewrite <- !app_assoc in Hfix.
  apply Hfix; try done.
  - apply notin_second_expression; try done.
    apply identifier_no_char; [reflexivity|done].
  - apply notin_second_expression; try done.
    apply identifier_no_char; [reflexivity|done].
Qed.

Lemma C4_single_greedy_match_witness :
  fix_mongodb_objects
    (txtq "  'a': " ++ txt "Ab" ++ "("%char :: txt "x" ++ ")"%char :: txt ", " ++
     txt "Cd" ++ "("%char :: txt "y" ++ ")"%char :: txt "," ++ [NL]) =
  Some (txtq "  'a': " ++ txt "x" ++ ")"%char :: txt ", " ++ txt "Cd" ++
        "("%char :: txt "y" ++ txt "," ++ [NL]).
Proof.
  apply C4_single_greedy_match.
  - apply (bool_decide_unpack _). vm_compute. reflexivity.
  - reflexivity.
  - exists "A"%char, (txt "b"). split_and!; [reflexivity|reflexivity|discriminate|].
    repeat constructor.
  - exists "C"%char, (txt "d"). split_and!; [reflexivity|reflexivity|discriminate|].
    repeat constructor.
  - apply (bool_decide_unpack _). vm_compute. reflexivity.
  - apply (bool_decide_unpack _). vm_compute. reflexivity.
  - apply (bool_decide_unpack _). vm_compute. reflexivity.
Defined.

(** C5 (corrected), counterexample.  A payload that is itself a
    constructor expression is unwrapped once more by a second
    application: the output of the first call is not a fixed point. *)
Lemma C5_nested_not_idempotent :
  fix_mongodb_objects (txt "Ab(Cd(x))") = Some (txt "Cd(x)") /\
  fix_mongodb_objects (txt "Cd(x)") = Some (txt "x") /\
  txt "x" <> txt "Cd(x)".
Proof. split_and!; [vm_compute; reflexivity|vm_compute; reflexivity|discriminate]. Qed.

(** C5 (corrected), amended.  When the payload holds no [(], no newline
    and no backslash (and the line has the shape of [C4]'s amended
    statement around a single expression), the output of the first call
    contains no constructor expression, so a second call returns it
    unchanged. *)
Theorem C5_idempotent_without_nesting pre id v post :
  ("("%char ∉ pre) -> no_letter_end pre = true -> identifier id ->
  (NL ∉ v) -> (BSLASH ∉ v) -> ("("%char ∉ v) -> (")"%char ∉ post) ->
  fix_mongodb_objects (pre ++ id ++ "("%char :: v ++ ")"%char :: post) =
    Some (pre ++ v ++ post) /\
  fix_mongodb_objects (pre ++ v ++ post) = Some (pre ++ v ++ post).
Proof.
  intros Hpre Hend Hid Hnl Hbs Hl Hpost. split.
  - by apply fix_mongodb_objects_plain.
  - apply fix_mongodb_objects_none. rewrite app_assoc.
    apply no_constructor_split; [|done].
    rewrite not_elem_of_app. by split.
Qed.

Lemma C5_idempotent_without_nesting_witness :
  fix_mongodb_objects (txtq "  '_id': " ++ txt "ObjectId" ++ "("%char :: txtq "'x'" ++
                       ")"%char :: txt "," ++ [NL]) =
    Some (txtq "  '_id': " ++ txtq "'x'" ++ txt "," ++ [NL]) /\
  fix_mongodb_objects (txtq "  '_id': " ++ txtq "'x'" ++ txt "," ++ [NL]) =
    Some (txtq "  '_id': " ++ txtq "'x'" ++ txt "," ++ [NL]).
Proof.
  apply C5_idempotent_without_nesting.
  - apply (bool_decide_unpack _). vm_compute. reflexivity.
  - reflexivity.
  - exists "O"%char, (txt "bjectId"). split_and!; [reflexivity|reflexivity|discriminate|].
    repeat constructor.
  - apply (bool_decide_unpack _). vm_compute. reflexivity.
  - apply (bool_decide_unpack _). vm_compute. reflexivity.
  - apply (bool_decide_unpack _). vm_compute. reflexivity.
  - apply (bool_decide_unpack _). vm_compute. reflexivity.
Defined.

(** C6.  The detector finds a constructor expression exactly when the line
    has an uppercase letter and one or more letters right before a [(]
    that is followed by a [)] on the same line; and when it finds one,
    the identifier is an uppercase letter followed by one or more letters,
    and the payload runs from that [(] to the last [)] of the line, so
    nested or repeated groups end up in one payload. *)
Theorem C6_greedy_detector line :
  (mongodb_match line = None <-> ~ has_constructor line) /\
  (forall ge gv, mongodb_match line = Some (ge, gv) -> greedy_decomposition line ge gv).
Proof.
  split; [apply mongodb_match_none|].
  intros ge gv Hm.
  destruct (mongodb_match_some line ge gv Hm)
    as (pre & id & v & post & Hl & Hid & Hnl & Hpost & Hge & Hgv & _).
  by exists pre, id, v, post.
Qed.

Lemma C6_greedy_detector_witness :
  greedy_decomposition (txt "Ab(Cd(x)), y") (Some (txt "Ab(Cd(x))")) (Some (txt "Cd(x)")).
Proof. apply (proj2 (C6_greedy_detector (txt "Ab(Cd(x)), y"))). vm_compute. reflexivity. Defined.

(** C7.  A line with no constructor expression comes back unchanged, and
    no exception is raised. *)
Theorem C7_no_constructor_unchanged line :
  ~ has_constructor line -> fix_mongodb_objects line = Some line.
Proof. apply fix_mongodb_objects_none. Qed.

Lemma C7_no_constructor_unchanged_witness :
  fix_mongodb_objects (txt "  }," ++ [NL]) = Some (txt "  }," ++ [NL]).
Proof.
  apply C7_no_constructor_unchanged.
  apply mongodb_match_none. vm_compute. reflexivity.
Defined.

(** C8.  The two examples: [ObjectId("abc123")] becomes ["abc123"], and
    [  "_id": ObjectId("x"),] with its newline becomes [  "_id": "x",]
    with the newline kept. *)
Theorem C8_examples :
  fix_mongodb_objects (txtq "ObjectId('abc123')") = Some (txtq "'abc123'") /\
  fix_mongodb_objects (txtq "  '_id': ObjectId('x')," ++ [NL]) =
    Some (txtq "  '_id': 'x'," ++ [NL]).
Proof. split; vm_compute; reflexivity. Qed.

(** C9 (corrected), counterexample.  A line ended by a carriage return
    and a newline is not kept as it is: the text-mode read turns its
    terminator into a newline, so the destination differs from the
    normalised lines of the source as stored. *)
Lemma C9_crlf_terminator_lost :
  update_json_file "in.json" "out.json" {["in.json" := crlf_line]} =
    (Some tt, <["out.json" := txt "a" ++ [NL]]> {["in.json" := crlf_line]}) /\
  convert_file_spec "in.json" "out.json" {["in.json" := crlf_line]} =
    (Some tt, <["out.json" := crlf_line]> {["in.json" := crlf_line]}) /\
  txt "a" ++ [NL] <> crlf_line.
Proof.
  split_and!.
  - rewrite update_json_file_eq, lookup_singleton_eq. vm_compute. reflexivity.
  - unfold convert_file_spec. rewrite lookup_singleton_eq. vm_compute. reflexivity.
  - discriminate.
Qed.

(** C9 (corrected), amended.  Converting a file maps the normaliser over
    the lines of its text after the universal-newline translation
    (["\r\n"] and ["\r"] read as ["\n"]) and writes their concatenation
    to the destination, nothing else; so for a source without a carriage
    return it is exactly the conversion of the stored lines, terminators
    kept.  Splitting into lines keeps every character. *)
Theorem C9_convert_maps_translated_lines path output_path fs :
  update_json_file path output_path fs =
    (match fs !! path with
     | None => (None, fs)
     | Some raw =>
         match convert_text (translate_newlines raw) with
         | Some out => (Some tt, <[output_path := out]> fs)
         | None => (None, fs)
         end
     end) /\
  (forall raw, fs !! path = Some raw -> CR ∉ raw ->
     update_json_file path output_path fs = convert_file_spec path output_path fs) /\
  (forall s, concat (readlines s) = s).
Proof.
  assert (update_json_file path output_path fs =
    match fs !! path with
    | None => (None, fs)
    | Some raw =>
        match convert_text (translate_newlines raw) with
        | Some out => (Some tt, <[output_path := out]> fs)
        | None => (None, fs)
        end
    end) as Heq.
  { rewrite update_json_file_eq. destruct (fs !! path); [|reflexivity].
    unfold convert_text. rewrite map_fix_mapM.
    by destruct (mapM fix_mongodb_objects _). }
  split_and!; [exact Heq| |apply readlines_concat].
  intros raw Hraw Hcr. rewrite Heq. unfold convert_file_spec.
  by rewrite Hraw, translate_newlines_no_cr.
Qed.

Lemma C9_convert_maps_translated_lines_witness :
  update_json_file "in.json" "out.json" {["in.json" := export_line]} =
  convert_file_spec "in.json" "out.json" {["in.json" := export_line]}.
Proof.
  apply (proj1 (proj2 (C9_convert_maps_translated_lines "in.json" "out.json"
                          {["in.json" := export_line]})) export_line).
  - apply lookup_singleton_eq.
  - apply (bool_decide_unpack _). vm_compute. reflexivity.
Defined.

(** C10.  The whole source is read and normalised before the destination
    is opened: a distinct source is left as it was, the destination ends
    up with the normalised content of the whole source even when it is
    the source itself, and when a line raises nothing is written. *)
Theorem C10_read_before_write path output_path fs raw :
  fs !! path = Some raw ->
  let r := update_json_file path output_path fs in
  (path <> output_path -> r.2 !! path = Some raw) /\
  (forall ls, map_fix (readlines (translate_newlines raw)) = Some ls ->
              r.1 = Some tt /\ r.2 !! output_path = Some (concat ls)) /\
  (map_fix (readlines (translate_newlines raw)) = None -> r.2 = fs).
Proof.
  intros Hraw. simpl. rewrite update_json_file_eq, Hraw.
  destruct (map_fix (readlines (translate_newlines raw))) as [ls'|] eqn:E;
    simpl; split_and!.
  - intros Hne. by rewrite lookup_insert_ne.
  - intros ls Hls. injection Hls as <-. split; [done|]. by rewrite lookup_insert_eq.
  - discriminate.
  - intros _. done.
  - intros ls Hls. discriminate.
  - done.
Qed.

Lemma C10_read_before_write_witness :
  (update_json_file "data.json" "data.json" {["data.json" := export_line]}).2
    !! "data.json" = Some (txtq "{'_id': 'x'}" ++ [NL]).
Proof.
  destruct (proj1 (proj2 (C10_read_before_write "data.json" "data.json"
              {["data.json" := export_line]} export_line
              ltac:(apply lookup_singleton_eq)))
              [txtq "{'_id': 'x'}" ++ [NL]] ltac:(vm_compute; reflexivity)) as [_ H].
  rewrite H. reflexivity.
Defined.

(** * Further properties of the module *)

(** ** Helpers *)

Lemma line_part_app l r : NL ∉ l -> line_part (l ++ r) = l ++ line_part r.
Proof.
  induction l as [|c l IH]; intros H; [done|].
  apply not_elem_of_cons in H as [Hc H]. simpl.
  assert (Ascii.eqb c NL = false) as -> by by apply Ascii.eqb_neq.
  by rewrite IH.
Qed.

Lemma rparen_neq_nl : ")"%char <> NL.
Proof. discriminate. Qed.

(** On a single line, no [)] after the last one of its first line part. *)
Lemma single_line_rparen a post :
  single_line (a ++ ")"%char :: post) -> ")"%char ∉ line_part post -> ")"%char ∉ post.
Proof.
  intros [Hno|(body & Hb & Hnl)] Hp.
  - assert (NL ∉ post) as Hpn.
    { intros Hin. apply Hno. apply elem_of_app. right. by apply elem_of_cons; right. }
    rewrite <- (app_nil_r post), line_part_app in Hp by done.
    by rewrite app_nil_r in Hp.
  - replace (a ++ ")"%char :: post) with ((a ++ [")"%char]) ++ post) in Hb
      by (rewrite <- app_assoc; done).
    destruct (List.app_eq_app _ _ _ _ Hb) as [k [[Hk1 Hk2]|[Hk1 Hk2]]].
    + destruct k as [|x k].
      * simpl in Hk2. subst post. intros Hin.
        apply elem_of_cons in Hin as [Hin|Hin]; [done|by apply elem_of_nil in Hin].
      * simpl in Hk2. injection Hk2 as <- Hk2.
        destruct k; [|done]. simpl in Hk2. subst post.
        apply app_inj_tail in Hk1 as [_ Hx]. done.
    + subst post. assert (NL ∉ k) as Hk.
      { intros Hin. apply Hnl. rewrite Hk1. apply elem_of_app. by right. }
      rewrite line_part_app in Hp by done. simpl in Hp.
      rewrite app_nil_r in Hp. intros Hin.
      apply elem_of_app in Hin as [Hin|Hin]; [done|].
      apply elem_of_cons in Hin as [Hin|Hin]; [done|by apply elem_of_nil in Hin].
Qed.

Lemma parse_template_plain v : BSLASH ∉ v -> parse_template v = Some (map PLit v).
Proof. intros Hv. unfold parse_template. apply parse_tmpl_plain; [lia|done]. Qed.

Lemma payload_in_line (x : ascii) pre id v post :
  x ∈ v -> x ∈ pre ++ id ++ "("%char :: v ++ ")"%char :: post.
Proof.
  intros H. apply elem_of_app. right. apply elem_of_app. right.
  apply elem_of_cons. right. apply elem_of_app. by left.
Qed.

(** [fix_mongodb_objects] raises only while compiling the payload as a
    replacement template. *)
Lemma fix_mongodb_objects_None line :
  fix_mongodb_objects line = None <->
  exists ge v, mongodb_match line = Some (ge, Some v) /\ parse_template v = None.
Proof.
  unfold fix_mongodb_objects, detect_mongodb_object.
  destruct (mongodb_match line) as [[ge gv]|] eqn:E.
  - destruct (mongodb_match_some _ _ _ E) as (pre & id & v & post & _ & _ & _ & _ & -> & -> & _).
    unfold replace_mongodb_object, re_sub. split.
    + destruct (parse_template v) eqn:P; [discriminate|]. intros _. eauto.
    + intros (ge' & v' & Hm & P). injection Hm as _ <-. by rewrite P.
  - split; [discriminate|]. intros (ge' & v' & Hm & _). discriminate.
Qed.

(** On a single line, the result is the line with the leftmost greedy
    match replaced by the expansion of its payload. *)
Lemma fix_single_line line ge gv :
  single_line line -> mongodb_match line = Some (ge, gv) ->
  exists pre id v post,
    line = pre ++ id ++ "("%char :: v ++ ")"%char :: post /\
    ge = Some (id ++ "("%char :: v ++ [")"%char]) /\ gv = Some v /\
    fix_mongodb_objects line =
    match parse_template v with
    | Some t => Some (pre ++ expand t (id ++ "("%char :: v ++ [")"%char]) ++ post)
    | None => None
    end.
Proof.
  intros Hs Hm.
  destruct (mongodb_match_some _ _ _ Hm)
    as (pre & id & v & post & Hl & Hid & Hv & Hp & Hge & Hgv & Hleft).
  exists pre, id, v, post. split_and!; [done|done|done|].
  unfold fix_mongodb_objects, detect_mongodb_object. rewrite Hm, Hge, Hgv.
  unfold replace_mongodb_object, re_sub.
  destruct (parse_template v) as [t|]; [|done]. f_equal.
  subst line.
  assert (")"%char ∉ post) as Hpost.
  { apply (single_line_rparen (pre ++ id ++ "("%char :: v)); [|done].
    by rewrite <- !app_assoc. }
  rewrite expr_app. apply sub_once.
  - destruct Hid as (u & ls & -> & _). done.
  - rewrite <- expr_app. lia.
  - intros k Hk [r Hr]. rewrite <- !expr_app in Hr.
    destruct (mtch_RE_complete k id (v ++ ")"%char :: r) Hid
                (rparen_in_line_part v r Hv)) as [m Hmt].
    rewrite <- Hr, Hleft in Hmt; done.
  - intros k Hk [r Hr]. apply Hpost. apply (elem_of_drop_sub _ k).
    rewrite Hr. apply elem_of_app. left. apply elem_of_app. right.
    apply elem_of_cons. right. apply elem_of_app. right. by apply elem_of_cons; left.
Qed.

(** Without a backslash the replacement is the payload itself. *)
Lemma fix_single_line_plain line ge gv :
  single_line line -> BSLASH ∉ line -> mongodb_match line = Some (ge, gv) ->
  exists pre id v post,
    line = pre ++ id ++ "("%char :: v ++ ")"%char :: post /\
    ge = Some (id ++ "("%char :: v ++ [")"%char]) /\ gv = Some v /\
    fix_mongodb_objects line = Some (pre ++ v ++ post).
Proof.
  intros Hs Hb Hm.
  destruct (fix_single_line _ _ _ Hs Hm) as (pre & id & v & post & Hl & Hge & Hgv & Hf).
  exists pre, id, v, post. split_and!; [done|done|done|].
  rewrite Hf, parse_template_plain, expand_plain; [done|].
  intros Hin. apply Hb. rewrite Hl. by apply payload_in_line.
Qed.

Lemma fix_no_backslash line :
  BSLASH ∉ line -> exists line', fix_mongodb_objects line = Some line'.
Proof.
  intros Hb. destruct (fix_mongodb_objects line) as [l'|] eqn:F; [eauto|].
  apply fix_mongodb_objects_None in F as (ge & v & Hm & P).
  destruct (mongodb_match_some _ _ _ Hm) as (pre & id & v' & post & Hl & _ & _ & _ & _ & Hgv & _).
  injection Hgv as ->.
  rewrite parse_template_plain in P; [discriminate|].
  intros Hin. apply Hb. rewrite Hl. by apply payload_in_line.
Qed.

(** ** Properties of [fix_mongodb_objects] *)

(** X1.  [fix_mongodb_objects] raises exactly when the detector finds a
    constructor expression and its payload is not a valid replacement
    template of [re.sub]; no other step of it can raise. *)
Theorem fix_mongodb_objects_raises_iff line :
  fix_mongodb_objects line = None <->
  exists ge v, mongodb_match line = Some (ge, Some v) /\ parse_template v = None.
Proof. apply fix_mongodb_objects_None. Qed.

(** X2.  A line without a backslash never makes [fix_mongodb_objects]
    raise. *)
Theorem fix_mongodb_objects_no_backslash_total line :
  BSLASH ∉ line -> exists line', fix_mongodb_objects line = Some line'.
Proof. apply fix_no_backslash. Qed.

Lemma fix_mongodb_objects_no_backslash_total_witness :
  exists line', fix_mongodb_objects (txtq "  'd': Date('2021-01-01')," ++ [NL]) = Some line'.
Proof.
  apply fix_mongodb_objects_no_backslash_total.
  apply (bool_decide_unpack _). vm_compute. reflexivity.
Defined.

(** X3.  On a line as [readlines] gives it (no newline, or one at its
    end) on which the detector matches [id(v)], the result is the line
    with that one occurrence of [id(v)] replaced by the expansion of [v]
    as a replacement template, or an exception when [v] is not a valid
    template. *)
Theorem fix_mongodb_objects_single_line line ge gv :
  single_line line -> mongodb_match line = Some (ge, gv) ->
  exists pre id v post,
    line = pre ++ id ++ "("%char :: v ++ ")"%char :: post /\
    ge = Some (id ++ "("%char :: v ++ [")"%char]) /\ gv = Some v /\
    fix_mongodb_objects line =
    match parse_template v with
    | Some t => Some (pre ++ expand t (id ++ "("%char :: v ++ [")"%char]) ++ post)
    | None => None
    end.
Proof. apply fix_single_line. Qed.

Lemma fix_mongodb_objects_single_line_witness :
  exists pre id v post,
    txt "(Ab(x) Cd(y))" ++ [NL] = pre ++ id ++ "("%char :: v ++ ")"%char :: post /\
    Some (txt "Ab(x) Cd(y))") = Some (id ++ "("%char :: v ++ [")"%char]) /\
    Some (txt "x) Cd(y)") = Some v /\
    fix_mongodb_objects (txt "(Ab(x) Cd(y))" ++ [NL]) =
    match parse_template v with
    | Some t => Some (pre ++ expand t (id ++ "("%char :: v ++ [")"%char]) ++ post)
    | None => None
    end.
Proof.
  apply fix_mongodb_objects_single_line.
  - right. exists (txt "(Ab(x) Cd(y))"). split; [reflexivity|].
    apply (bool_decide_unpack _). vm_compute. reflexivity.
  - vm_compute. reflexivity.
Defined.

(** X4.  On a line as [readlines] gives it, without a backslash, on which
    the detector matches [id(v)], the result is the line with [id(v)]
    replaced by the characters of [v]. *)
Theorem fix_mongodb_objects_single_line_literal line ge gv :
  single_line line -> BSLASH ∉ line -> mongodb_match line = Some (ge, gv) ->
  exists pre id v post,
    line = pre ++ id ++ "("%char :: v ++ ")"%char :: post /\
    ge = Some (id ++ "("%char :: v ++ [")"%char]) /\ gv = Some v /\
    fix_mongodb_objects line = Some (pre ++ v ++ post).
Proof. apply fix_single_line_plain. Qed.

Lemma fix_mongodb_objects_single_line_literal_witness :
  exists pre id v post,
    txtq "  'f(x)': Ab('y')," ++ [NL] = pre ++ id ++ "("%char :: v ++ ")"%char :: post /\
    Some (txtq "Ab('y')") = Some (id ++ "("%char :: v ++ [")"%char]) /\
    Some (txtq "'y'") = Some v /\
    fix_mongodb_objects (txtq "  'f(x)': Ab('y')," ++ [NL]) = Some (pre ++ v ++ post).
Proof.
  apply fix_mongodb_objects_single_line_literal.
  - right. exists (txtq "  'f(x)': Ab('y'),"). split; [reflexivity|].
    apply (bool_decide_unpack _). vm_compute. reflexivity.
  - apply (bool_decide_unpack _). vm_compute. reflexivity.
  - vm_compute. reflexivity.
Defined.

(** X5.  The detector's match is the leftmost one: every constructor
    shape of the line ([id(] with [id] an uppercase letter and one or more
    letters, and a [)] later on the same line) starts at or after the
    start of the matched expression. *)
Theorem mongodb_match_leftmost line ge gv :
  mongodb_match line = Some (ge, gv) ->
  exists pre id v post,
    line = pre ++ id ++ "("%char :: v ++ ")"%char :: post /\
    ge = Some (id ++ "("%char :: v ++ [")"%char]) /\ gv = Some v /\
    forall pre' id' rest',
      line = pre' ++ id' ++ "("%char :: rest' -> identifier id' ->
      ")"%char ∈ line_part rest' -> length pre <= length pre'.
Proof.
  intros Hm.
  destruct (mongodb_match_some _ _ _ Hm)
    as (pre & id & v & post & Hl & Hid & Hv & Hp & Hge & Hgv & Hleft).
  exists pre, id, v, post. split_and!; [done|done|done|].
  intros pre' id' rest' Hl' Hid' Hin.
  destruct (Nat.le_gt_cases (length pre) (length pre')) as [|Hlt]; [done|].
  exfalso. pose proof (Hleft _ Hlt) as Hn.
  rewrite Hl', drop_app_length in Hn.
  destruct (mtch_RE_complete (length pre') id' rest' Hid' Hin) as [r Hr].
  congruence.
Qed.

Lemma mongodb_match_leftmost_witness :
  exists pre id v post,
    txt "x Ab(1) Cd(2)" = pre ++ id ++ "("%char :: v ++ ")"%char :: post /\
    Some (txt "Ab(1) Cd(2)") = Some (id ++ "("%char :: v ++ [")"%char]) /\
    Some (txt "1) Cd(2") = Some v /\
    forall pre' id' rest',
      txt "x Ab(1) Cd(2)" = pre' ++ id' ++ "("%char :: rest' -> identifier id' ->
      ")"%char ∈ line_part rest' -> length pre <= length pre'.
Proof. apply mongodb_match_leftmost. vm_compute. reflexivity. Defined.

(** ** Helpers on lines *)

Ltac unfold_elems :=
  repeat (rewrite elem_of_app in * || rewrite elem_of_cons in * ).

Lemma readlines_acc_line cur b rest :
  NL ∉ b ->
  readlines_acc cur (b ++ NL :: rest) = (reverse cur ++ b ++ [NL]) :: readlines_acc [] rest.
Proof.
  revert cur. induction b as [|c b IH]; intros cur Hb; simpl.
  - by rewrite reverse_cons.
  - apply not_elem_of_cons in Hb as [Hc Hb].
    assert (Ascii.eqb c NL = false) as -> by by apply Ascii.eqb_neq.
    rewrite IH by done. rewrite reverse_cons, <- app_assoc. done.
Qed.

Lemma readlines_acc_last cur b :
  NL ∉ b -> cur ++ b <> [] -> readlines_acc cur b = [reverse cur ++ b].
Proof.
  revert cur. induction b as [|c b IH]; intros cur Hb Hne; simpl.
  - destruct cur as [|x cur]; [by rewrite app_nil_r in Hne|]. by rewrite app_nil_r.
  - apply not_elem_of_cons in Hb as [Hc Hb].
    assert (Ascii.eqb c NL = false) as -> by by apply Ascii.eqb_neq.
    rewrite IH by done. by rewrite reverse_cons, <- app_assoc.
Qed.

Lemma readlines_acc_shape cur s :
  NL ∉ cur ->
  exists ts r, readlines_acc cur s = ts ++ r /\ Forall terminated ts /\ last_line_ok r.
Proof.
  revert cur. induction s as [|c s IH]; intros cur Hcur; simpl.
  - destruct cur as [|x cur].
    + exists [], []. split_and!; [done|constructor|by left].
    + exists [], [reverse (x :: cur)]. split_and!; [done|constructor|].
      right. eexists. split_and!; [done| |].
      * rewrite reverse_cons. intros E. by destruct (reverse cur).
      * rewrite elem_of_reverse. done.
  - destruct (Ascii.eqb c NL) eqn:E.
    + apply Ascii.eqb_eq in E. subst c.
      destruct (IH [] ltac:(apply not_elem_of_nil)) as (ts & r & Heq & Hts & Hr).
      exists (reverse (NL :: cur) :: ts), r. split_and!.
      * by rewrite Heq.
      * constructor; [|done]. exists (reverse cur). split; [apply reverse_cons|].
        by rewrite elem_of_reverse.
      * done.
    + apply Ascii.eqb_neq in E. apply IH.
      by apply not_elem_of_cons.
Qed.

Lemma readlines_shape s :
  exists ts r, readlines s = ts ++ r /\ Forall terminated ts /\ last_line_ok r.
Proof. apply readlines_acc_shape, not_elem_of_nil. Qed.

Lemma readlines_of_lines ts r :
  Forall terminated ts -> last_line_ok r -> readlines (concat (ts ++ r)) = ts ++ r.
Proof.
  induction ts as [|t ts IH]; intros Hts Hr.
  - destruct Hr as [->|(l & -> & Hne & Hl)]; [done|].
    simpl. rewrite app_nil_r. unfold readlines.
    by rewrite readlines_acc_last.
  - inversion Hts as [|? ? (b & -> & Hb) Hts']; subst.
    simpl. rewrite <- app_assoc. simpl. unfold readlines.
    rewrite readlines_acc_line by done. simpl. f_equal. by apply IH.
Qed.

Lemma translate_newlines_elem x s :
  x ∈ translate_newlines s -> x ∈ s \/ x = NL.
Proof.
  remember (length s) as n eqn:Hn. revert s Hn.
  induction n as [n IH] using lt_wf_ind. intros s Hn.
  destruct s as [|c s']; simpl; [intros H; by apply elem_of_nil in H|].
  destruct (Ascii.eqb c CR).
  - destruct s' as [|d s''].
    + intros H. apply elem_of_cons in H as [H|H]; [by right|by apply elem_of_nil in H].
    + destruct (Ascii.eqb d NL).
      * intros H. apply elem_of_cons in H as [H|H]; [by right|].
        destruct (IH (length s'') ltac:(simpl in Hn; lia) s'' eq_refl H) as [H'|H'];
          [|by right].
        left. by do 2 (apply elem_of_cons; right).
      * intros H. apply elem_of_cons in H as [H|H]; [by right|].
        destruct (IH (length (d :: s'')) ltac:(simpl in *; lia) (d :: s'') eq_refl H)
          as [H'|H']; [|by right].
        left. by apply elem_of_cons; right.
  - intros H. apply elem_of_cons in H as [H|H]; [left; by apply elem_of_cons; left|].
    destruct (IH (length s') ltac:(simpl in Hn; lia) s' eq_refl H) as [H'|H']; [|by right].
    left. by apply elem_of_cons; right.
Qed.

Lemma elem_of_concat_line (x : ascii) l ls : l ∈ ls -> x ∈ l -> x ∈ concat ls.
Proof.
  induction ls as [|l' ls IH]; intros Hl Hx; [by apply elem_of_nil in Hl|].
  simpl. apply elem_of_app. apply elem_of_cons in Hl as [->|Hl]; [by left|].
  right. by apply IH.
Qed.

Lemma bslash_neq_nl : BSLASH <> NL.
Proof. discriminate. Qed.

(** The normalised line keeps the shape of the line. *)
Lemma fix_plain_shape l l' :
  single_line l -> BSLASH ∉ l -> fix_mongodb_objects l = Some l' ->
  (terminated l -> terminated l') /\ (NL ∉ l -> NL ∉ l').
Proof.
  intros Hs Hb Hf.
  destruct (mongodb_match l) as [[ge gv]|] eqn:Hm.
  2:{ rewrite fix_mongodb_objects_none in Hf by (by apply mongodb_match_none).
      injection Hf as <-. done. }
  destruct (fix_single_line_plain _ _ _ Hs Hb Hm) as (pre & id & v & post & Hl & _ & _ & Hf').
  rewrite Hf in Hf'. injection Hf' as ->. subst l.
  assert (forall x, x ∈ pre ++ v ++ post -> x ∈ pre ++ id ++ "("%char :: v ++ ")"%char :: post)
    as Hsub.
  { intros x Hx. unfold_elems. tauto. }
  split.
  - intros (body & Hbody & Hnl).
    rewrite expr_app, app_assoc in Hbody.
    destruct (List.app_eq_app _ _ _ _ Hbody) as [k [[Hk1 Hk2]|[Hk1 Hk2]]].
    + destruct k as [|x k].
      * simpl in Hk2. subst post. rewrite app_nil_r in Hk1. subst body.
        exists (pre ++ v). split; [by rewrite <- app_assoc|].
        intros Hin. apply Hnl. unfold_elems.
        tauto.
      * simpl in Hk2. injection Hk2 as <- Hk2. destruct k; [|done].
        simpl in Hk2. subst post.
        replace (pre ++ id ++ "("%char :: v ++ [")"%char])
          with ((pre ++ id ++ "("%char :: v) ++ [")"%char]) in Hk1
          by (rewrite <- !app_assoc; reflexivity).
        apply app_inj_tail in Hk1 as [_ Hx]. done.
    + subst post. exists (pre ++ v ++ k). split; [by rewrite !app_assoc|].
      intros Hin. apply Hnl. rewrite Hk1.
      unfold_elems. tauto.
  - intros Hnl Hin. apply Hnl. by apply Hsub.
Qed.

(** ** Properties of [update_json_file] *)

(** X6.  When the source file does not exist, [update_json_file] raises
    before opening the destination: no file is created, truncated or
    changed. *)
Theorem update_json_file_missing_source path output_path fs :
  fs !! path = None -> update_json_file path output_path fs = (None, fs).
Proof. intros H. by rewrite update_json_file_eq, H. Qed.

Lemma update_json_file_missing_source_witness :
  update_json_file "missing.json" "out.json" {["out.json" := export_line]} =
    (None, {["out.json" := export_line]}).
Proof. apply update_json_file_missing_source. reflexivity. Defined.

(** X7.  [update_json_file] changes no file other than the destination,
    whether it succeeds or raises. *)
Theorem update_json_file_frame path output_path fs p :
  p <> output_path -> (update_json_file path output_path fs).2 !! p = fs !! p.
Proof.
  intros Hp. rewrite update_json_file_eq.
  destruct (fs !! path); [|done].
  destruct (map_fix _); [|done]. simpl. by rewrite lookup_insert_ne.
Qed.

Lemma update_json_file_frame_witness :
  (update_json_file "in.json" "out.json"
     {["in.json" := export_line; "other.json" := txt "keep"]}).2 !! "other.json" =
  Some (txt "keep").
Proof. rewrite update_json_file_frame; [reflexivity|discriminate]. Defined.

(** X8.  A source none of whose lines holds a constructor expression is
    copied to the destination as it was read (with its line endings
    translated to newlines). *)
Theorem update_json_file_copies_plain_file path output_path fs raw :
  fs !! path = Some raw ->
  Forall (fun l => ~ has_constructor l) (readlines (translate_newlines raw)) ->
  update_json_file path output_path fs =
    (Some tt, <[output_path := translate_newlines raw]> fs).
Proof.
  intros Hraw Hall. rewrite update_json_file_eq, Hraw.
  assert (map_fix (readlines (translate_newlines raw)) =
          Some (readlines (translate_newlines raw))) as ->.
  { apply map_fix_Forall2. induction Hall; constructor; [|done].
    by apply fix_mongodb_objects_none. }
  by rewrite readlines_concat.
Qed.

Lemma update_json_file_copies_plain_file_witness :
  update_json_file "in.json" "out.json" {["in.json" := txtq "{'a': 1}" ++ [NL]]} =
    (Some tt, <["out.json" := txtq "{'a': 1}" ++ [NL]]>
                {["in.json" := txtq "{'a': 1}" ++ [NL]]}).
Proof.
  rewrite (update_json_file_copies_plain_file _ _ _ (txtq "{'a': 1}" ++ [NL])).
  - reflexivity.
  - apply lookup_singleton_eq.
  - vm_compute. constructor; [|constructor].
    apply mongodb_match_none. vm_compute. reflexivity.
Defined.

(** X9.  A source without a backslash is converted without an exception,
    into one normalised line per line read; reading the destination back
    gives exactly these lines, so as many as the source has, unless the
    last one (which has no newline) normalises to the empty text. *)
Theorem update_json_file_no_backslash_lines path output_path fs raw :
  fs !! path = Some raw -> BSLASH ∉ raw ->
  exists ls,
    update_json_file path output_path fs = (Some tt, <[output_path := concat ls]> fs) /\
    Forall2 (fun l l' => fix_mongodb_objects l = Some l')
            (readlines (translate_newlines raw)) ls /\
    (last ls <> Some [] -> readlines (concat ls) = ls).
Proof.
  intros Hraw Hb. rewrite update_json_file_eq, Hraw.
  set (s := translate_newlines raw).
  assert (BSLASH ∉ s) as Hbs.
  { intros Hin. destruct (translate_newlines_elem _ _ Hin) as [H|H]; [done|].
    by apply bslash_neq_nl. }
  assert (forall l, l ∈ readlines s -> BSLASH ∉ l) as Hbl.
  { intros l Hl Hin. apply Hbs. rewrite <- (readlines_concat s).
    by apply (elem_of_concat_line _ l). }
  destruct (readlines_shape s) as (ts & r & Hrl & Hts & Hr).
  (* the terminated lines *)
  assert (exists ts', Forall2 (fun l l' => fix_mongodb_objects l = Some l') ts ts' /\
                      Forall terminated ts') as (ts' & Hts2 & Hts').
  { assert (forall l, l ∈ ts -> BSLASH ∉ l) as Hb'.
    { intros l Hl. apply Hbl. rewrite Hrl. apply elem_of_app. by left. }
    clear Hrl Hr. induction Hts as [|t ts Ht Hts IH].
    - exists []. split; constructor.
    - destruct (IH ltac:(intros l Hl; apply Hb'; by apply elem_of_cons; right))
        as (ts' & H1 & H2).
      assert (BSLASH ∉ t) as Hbt by (apply Hb'; by apply elem_of_cons; left).
      destruct (fix_no_backslash t Hbt) as [t' Ht'].
      exists (t' :: ts'). split; constructor; try done.
      apply (proj1 (fix_plain_shape t t' (or_intror Ht) Hbt Ht')). done. }
  (* the last line *)
  assert (exists r', Forall2 (fun l l' => fix_mongodb_objects l = Some l') r r' /\
                     (last r' <> Some [] -> last_line_ok r')) as (r' & Hr2 & Hr').
  { destruct Hr as [->|(l & -> & Hne & Hl)].
    - exists []. split; [constructor|intros _; by left].
    - assert (BSLASH ∉ l) as Hbt.
      { apply Hbl. rewrite Hrl. apply elem_of_app. right. by apply elem_of_cons; left. }
      destruct (fix_no_backslash l Hbt) as [l' Hl'].
      exists [l']. split; [by repeat constructor|].
      intros Hlast. right. exists l'. split_and!; [done| |].
      + intros ->. by apply Hlast.
      + apply (proj2 (fix_plain_shape l l' (or_introl Hl) Hbt Hl')). done. }
  assert (map_fix (readlines s) = Some (ts' ++ r')) as ->.
  { apply map_fix_Forall2. rewrite Hrl. by apply Forall2_app. }
  exists (ts' ++ r'). split_and!; [done| |].
  - rewrite Hrl. by apply Forall2_app.
  - intros Hlast. apply readlines_of_lines; [done|]. apply Hr'.
    intros E. apply Hlast. destruct r' as [|x r'']; [done|].
    by rewrite last_app_cons.
Qed.

Lemma update_json_file_no_backslash_lines_witness :
  exists ls,
    update_json_file "in.json" "out.json"
      {["in.json" := txtq "{'_id': ObjectId('x')," ++ [NL] ++ txtq " 'n': 1}"]} =
      (Some tt, <["out.json" := concat ls]>
                  {["in.json" := txtq "{'_id': ObjectId('x')," ++ [NL] ++ txtq " 'n': 1}"]}) /\
    Forall2 (fun l l' => fix_mongodb_objects l = Some l')
            (readlines (translate_newlines
               (txtq "{'_id': ObjectId('x')," ++ [NL] ++ txtq " 'n': 1}"))) ls /\
    (last ls <> Some [] -> readlines (concat ls) = ls).
Proof.
  apply update_json_file_no_backslash_lines.
  - apply lookup_singleton_eq.
  - apply (bool_decide_unpack _). vm_compute. reflexivity.
Defined.

(** ** Properties of the row projection of [read_udpated_json_file] *)

(** X10.  The projection raises [AttributeError] when the document is not
    a JSON object, or when its [member] or its [rewards] entry is missing
    or not an object ([.get] on [None], a list, a string, ...). *)
Theorem extract_row_attribute_error result :
  match result with
  | PyDict ms =>
      (forall m, dict_lookup (txt "member") ms <> Some (PyDict m)) \/
      (forall rw, dict_lookup (txt "rewards") ms <> Some (PyDict rw))
  | _ => True
  end ->
  extract_row result = inl AttributeError.
Proof.
  rewrite extract_row_eq. destruct result as [| | | | |ms]; try done.
  intros H.
  destruct (dict_lookup (txt "member") ms) as [[| | | | |m]|] eqn:Hm;
  destruct (dict_lookup (txt "rewards") ms) as [[| | | | |rw]|] eqn:Hr; simpl; try done.
  exfalso. destruct H as [H|H]; [by apply (H m)|by apply (H rw)].
Qed.

Lemma extract_row_attribute_error_witness :
  extract_row (PyDict [(txt "member", PyNone)]) = inl AttributeError.
Proof.
  apply extract_row_attribute_error. left. intros m. discriminate.
Defined.

(** X11.  When [member] and [rewards] are objects, the exception comes
    from [rewards_results][0] and its [.get]: [IndexError] for an empty
    array or string, [KeyError] for an object, [TypeError] for a missing
    entry, [null], a boolean or a number, and [AttributeError] for a
    non-empty string or an array whose first element is not an object. *)
Theorem extract_row_rewards_results_errors ms m rw :
  dict_lookup (txt "member") ms = Some (PyDict m) ->
  dict_lookup (txt "rewards") ms = Some (PyDict rw) ->
  let rr := default PyNone (dict_lookup (txt "rewards_results") ms) in
  (rr = PyList [] \/ rr = PyStr [] -> extract_row (PyDict ms) = inl IndexError) /\
  ((exists d, rr = PyDict d) -> extract_row (PyDict ms) = inl KeyError) /\
  (rr = PyNone \/ (exists b, rr = PyBool b) \/ (exists n, rr = PyNum n) ->
   extract_row (PyDict ms) = inl TypeError) /\
  ((exists c s, rr = PyStr (c :: s)) \/
   (exists x rest, rr = PyList (x :: rest) /\ forall g, x <> PyDict g) ->
   extract_row (PyDict ms) = inl AttributeError).
Proof.
  intros Hm Hr. cbv zeta. rewrite extract_row_eq, Hm, Hr.
  destruct (default PyNone (dict_lookup (txt "rewards_results") ms))
    as [|b|n|[|c s]|[|[|b'|n'|s'|l'|g] rest]|d]; simpl;
    split_and!; intros H; try reflexivity; exfalso; naive_solver.
Qed.

Lemma extract_row_rewards_results_errors_witness :
  extract_row (PyDict [(txt "member", PyDict []); (txt "rewards", PyDict []);
                       (txt "rewards_results", PyList [])]) = inl IndexError.
Proof.
  apply (extract_row_rewards_results_errors _ [] []); [reflexivity|reflexivity|].
  left. reflexivity.
Defined.
